(** * Canonicalization edit pipeline of tailwindcss-canonical-classes

    A shallow embedding of [packages/core/src/canonicalizer.ts] (the edit
    translator and the edit applier), of the design-system cache of
    [packages/core/src/design-system.ts] and of the batch driver of
    [packages/cli/src/cli.ts], with the properties the specification states
    about them; then of the stylesheet and module resolution of
    [design-system.ts], of the preprocess functions of
    [packages/prettier-plugin] and of [processFile] and [main] of the
    single-file tool [src/cli.ts], with further properties of the code.

    Conventions.
    - A JavaScript string is a [string]; offsets are natural numbers, as
      [TextDocument.offsetAt] produces them.
    - [Number.POSITIVE_INFINITY] is the constructor [PosInfinity] of [bound].
    - The analyzer ([doValidate]), the text document operations, Node's
      [path] functions, the file system, the glob library and the loaded
      design system are not code of the repository: they are the members of
      the classes [Host], [LanguageService] and [Platform], and every
      definition and theorem holds for all their instances. The same holds
      of Node's module resolver and of the module loader ([NodePath],
      [ModuleLoader]) and of the process Prettier runs in ([Runtime]). *)

From stdpp Require Import gmap strings list sorting pretty.
From Stdlib Require Import Ascii ZArith Lia.

Local Open Scope Z_scope.
Local Open Scope nat_scope.

(** ** JavaScript strings *)

Module JsString.

(** [s.slice(0, n)] for a non-negative [n]: the first [n] characters,
    the whole string when it is shorter. *)
Fixpoint take (n : nat) (s : string) : string :=
  match n, s with
  | S n', String c s' => String c (take n' s')
  | _, _ => ""
  end.

(** [s.slice(n)] for a non-negative [n]: the string without its first
    [n] characters, empty when it is shorter. *)
Fixpoint drop (n : nat) (s : string) : string :=
  match n, s with
  | S n', String _ s' => drop n' s'
  | _, _ => s
  end.

(** [s.slice(b, e)] and [s.substring(b, e)] on non-negative [b <= e];
    [slice] is empty when [e < b]. *)
Definition slice (s : string) (b e : nat) : string := take (e - b) (drop b s).

(** [s.slice(b)]. *)
Definition slice_from (s : string) (b : nat) : string := drop b s.

End JsString.

(** ** Exceptions and rejected promises

    A call that can throw, or an awaited promise that can be rejected,
    yields an [outcome]; [x ← m; k] stops at the first [Thrown]. *)

Inductive outcome (A : Type) :=
| Returned (a : A)
| Thrown (message : string).
Global Arguments Returned {_} _.
Global Arguments Thrown {_} _.

Global Instance outcome_ret : MRet outcome := λ A, Returned.
Global Instance outcome_bind : MBind outcome := λ A B f m,
  match m with
  | Returned a => f a
  | Thrown message => Thrown message
  end.

(** ** Data model ([packages/core/src/types.ts]) *)

Record TextEdit := mkTextEdit {
  startOffset : nat;
  endOffset : nat;
  replacement : string;
  original : string
}.

Global Instance TextEdit_eq_dec : EqDecision TextEdit.
Proof. solve_decision. Defined.

(** The value of [lastStart] in [applyTextEdits]: a number or
    [Number.POSITIVE_INFINITY]. *)
Inductive bound :=
| PosInfinity
| Finite (n : nat).

(** [n > b] on numbers, where nothing exceeds [+Infinity]. *)
Definition exceeds (n : nat) (b : bound) : bool :=
  match b with
  | PosInfinity => false
  | Finite m => bool_decide (m < n)
  end.

(** ** [Array.prototype.sort]

    The sort of ECMAScript 2019 is stable; an element is put before the first
    element the comparator does not order it after, so that elements the
    comparator equates keep their input order. *)
Section ArraySort.
Context {A : Type} (cmp : A → A → Z).

Fixpoint sort_insert (x : A) (l : list A) : list A :=
  match l with
  | [] => [x]
  | y :: l' => if bool_decide (cmp x y ≤ 0)%Z then x :: l else y :: sort_insert x l'
  end.

Definition array_sort (l : list A) : list A := foldr sort_insert [] l.
End ArraySort.

(** ** The edit applier ([applyTextEdits]) *)

(** The comparator [(a, b) => b.startOffset - a.startOffset]. *)
Definition by_descending_start (a b : TextEdit) : Z :=
  (Z.of_nat (startOffset b) - Z.of_nat (startOffset a))%Z.

(** [output.slice(0, edit.startOffset) + edit.replacement
     + output.slice(edit.endOffset)]. *)
Definition splice (output : string) (edit : TextEdit) : string :=
  JsString.slice output 0 (startOffset edit)
    +:+ replacement edit +:+ JsString.slice_from output (endOffset edit).

(** One iteration of the [for (const edit of sorted)] loop on the loop's
    variables [output] and [lastStart]. *)
Definition apply_step (st : string * bound) (edit : TextEdit) : string * bound :=
  let '(output, lastStart) := st in
  if exceeds (endOffset edit) lastStart then st
  else (splice output edit, Finite (startOffset edit)).

Definition applyTextEdits (text : string) (edits : list TextEdit) : string :=
  if bool_decide (length edits = 0) then text
  else
    let sorted := array_sort by_descending_start edits in
    (foldl apply_step (text, PosInfinity) sorted).1.

(** ** The format dispatcher ([inferLanguageId], [isSupportedExtension])

    [path.extname] and [String.prototype.toLowerCase] belong to the host. *)

Class Host := {
  extname : string → string;
  toLowerCase : string → string;
  pathToFileURL : string → string;
  path_resolve : string → string → string
}.

Definition SUPPORTED_EXTENSIONS : gset string :=
  list_to_set
    [".astro"; ".css"; ".html"; ".htm"; ".js"; ".jsx"; ".less"; ".md"; ".mdx";
     ".mjs"; ".mts"; ".pcss"; ".postcss"; ".sass"; ".scss"; ".styl";
     ".stylus"; ".sss"; ".svelte"; ".ts"; ".tsx"; ".vue"].

(** The [switch (ext)] of [inferLanguageId]: each group of [case] labels with
    the value its [return] gives; [None] is the [default] branch. *)
Definition language_of_extension (ext : string) : option string :=
  if bool_decide (ext ∈ [".css"; ".less"; ".pcss"; ".postcss"; ".scss";
                         ".sass"; ".styl"; ".stylus"; ".sss"])
  then Some "css"
  else if bool_decide (ext ∈ [".html"; ".htm"; ".md"; ".mdx"]) then Some "html"
  else if bool_decide (ext ∈ [".js"; ".mjs"]) then Some "javascript"
  else if bool_decide (ext = ".jsx") then Some "javascriptreact"
  else if bool_decide (ext ∈ [".ts"; ".mts"]) then Some "typescript"
  else if bool_decide (ext = ".tsx") then Some "typescriptreact"
  else if bool_decide (ext = ".vue") then Some "vue"
  else if bool_decide (ext = ".svelte") then Some "svelte"
  else if bool_decide (ext = ".astro") then Some "astro"
  else None.

Definition inferLanguageId {host : Host} (filePath : string) : option string :=
  let ext := toLowerCase (extname filePath) in
  language_of_extension ext.

Definition isSupportedExtension {host : Host} (filePath : string) : bool :=
  let ext := toLowerCase (extname filePath) in
  bool_decide (ext ∈ SUPPORTED_EXTENSIONS).

(** ** The diagnostic-to-edit translator *)

Record Position := mkPosition { line : nat; character : nat }.
Record Range := mkRange { range_start : Position; range_end : Position }.

(** What the translator reads of a diagnostic: whether the type guard
    [isSuggestCanonicalClasses] accepts it, its optional [suggestions] and
    its [range]. *)
Record Diagnostic := mkDiagnostic {
  isSuggestCanonicalClasses : bool;
  suggestions : option (list string);
  range : Range
}.

Record TextDocument := mkTextDocument {
  uri : string;
  languageId : string;
  version : nat;
  content : string
}.

(** [DesignSystem] of [types.ts]: both members are optional;
    [invalidCandidates] is a [Set], kept in its iteration order. *)
Record DesignSystem := mkDesignSystem {
  canonicalizeCandidates : option (list string → list string);
  invalidCandidates : option (list string)
}.

(** The argument of [createState] in [createLanguageServiceState]. *)
Record StateOptions (Settings : Type) := mkStateOptions {
  v4 : bool;
  so_designSystem : DesignSystem;
  blocklist : list string;
  editor_folder : string;
  editor_getConfiguration : Settings
}.
Global Arguments mkStateOptions {_} _ _ _ _ _.

(** The language service and the text documents of
    [vscode-languageserver-textdocument]. [getText_substring] is the
    documented behaviour of [TextDocument.getText(range)] on a range whose
    end is not before its start: the text between the two offsets. *)
Class LanguageService := {
  Settings : Type;
  State : Type;
  defaultSettingsWithRootFontSize : nat → Settings;
  createState : StateOptions Settings → State;
  doValidate : State → TextDocument → outcome (list Diagnostic);
  offsetAt : TextDocument → Position → nat;
  getText : TextDocument → Range → string;
  getText_substring : ∀ document r,
    offsetAt document (range_start r) ≤ offsetAt document (range_end r) →
    getText document r =
    JsString.slice (content document)
      (offsetAt document (range_start r)) (offsetAt document (range_end r))
}.

Definition DEFAULT_DOCUMENT_VERSION : nat := 1.
Definition DEFAULT_ROOT_FONT_SIZE : nat := 16.

(** [key = `${edit.startOffset}:${edit.endOffset}`]. *)
Definition edit_key (edit : TextEdit) : string :=
  pretty (startOffset edit) +:+ ":" +:+ pretty (endOffset edit).

(** One iteration of the loop of [dedupeEdits] on [seen] and [result]. *)
Definition dedupe_step (st : gset string * list TextEdit) (edit : TextEdit)
  : gset string * list TextEdit :=
  let '(seen, result) := st in
  let key := edit_key edit in
  if bool_decide (key ∈ seen) then st
  else ({[key]} ∪ seen, result ++ [edit]).

Definition dedupeEdits (edits : list TextEdit) : list TextEdit :=
  (foldl dedupe_step (∅, []) edits).2.

Section Canonicalizer.
Context {host : Host} {service : LanguageService}.

Definition createSettings (rootFontSize : nat) : Settings :=
  defaultSettingsWithRootFontSize rootFontSize.

Definition createLanguageServiceState
    (designSystem : DesignSystem) (rootDir : string) (settings : Settings) : State :=
  createState
    (mkStateOptions true designSystem
       (default [] (invalidCandidates designSystem)) rootDir settings).

Definition createTextDocument (filePath languageId text : string) : TextDocument :=
  mkTextDocument (pathToFileURL filePath) languageId DEFAULT_DOCUMENT_VERSION text.

(** One iteration of the loop of [buildCanonicalEdits] on [edits]. The
    test [!suggestion] holds of [undefined] and of the empty string. *)
Definition build_step (document : TextDocument)
    (edits : list TextEdit) (diagnostic : Diagnostic) : list TextEdit :=
  if negb (isSuggestCanonicalClasses diagnostic) then edits
  else
    match suggestions diagnostic ≫= head with
    | None => edits
    | Some suggestion =>
        if bool_decide (suggestion = "") then edits
        else
          let startOffset := offsetAt document (range_start (range diagnostic)) in
          let endOffset := offsetAt document (range_end (range diagnostic)) in
          if bool_decide (endOffset ≤ startOffset) then edits
          else
            edits ++ [mkTextEdit startOffset endOffset suggestion
                        (getText document (range diagnostic))]
    end.

Definition buildCanonicalEdits (state : State) (document : TextDocument)
  : outcome (list TextEdit) :=
  diagnostics ← doValidate state document;
  mret (dedupeEdits (foldl (build_step document) [] diagnostics)).

(** [options.rootFontSize] is optional. *)
Definition canonicalizeDocument (text filePath : string)
    (designSystem : DesignSystem) (rootDir : string)
    (rootFontSize : option nat) : outcome string :=
  match inferLanguageId filePath with
  | None => mret text
  | Some languageId =>
      let settings := createSettings (default DEFAULT_ROOT_FONT_SIZE rootFontSize) in
      let state := createLanguageServiceState designSystem rootDir settings in
      let document := createTextDocument filePath languageId text in
      edits ← buildCanonicalEdits state document;
      if bool_decide (length edits = 0) then mret text
      else mret (applyTextEdits text edits)
  end.
End Canonicalizer.

(** The edits of the overlap example and of the offset example. *)
Definition edit_A : TextEdit := mkTextEdit 0 5 "A" "".
Definition edit_B : TextEdit := mkTextEdit 3 8 "B" "".
Definition edit_X : TextEdit := mkTextEdit 1 7 "X" "[16px]".
Definition edit_Y : TextEdit := mkTextEdit 8 13 "Y" "[8px]".

(** ** The design-system cache ([design-system.ts])

    [designSystemCache] maps a cache key to a promise. A promise is named by
    the rank of the call of [loadTailwindDesignSystem] that created it.
    [getDesignSystem] contains no [await]: a call runs from its first
    statement to its [return] without any other code of the process running
    in between, so a call is one transition of the loader state. The value
    an [async] function returns settles as the promise it returned: the
    caller of [getDesignSystem] awaits the cached promise. *)

Record LoaderState := mkLoaderState {
  designSystemCache : gmap string nat;
  loadsStarted : list (string * option string);
  settledPromises : gset nat
}.

Definition fresh_process : LoaderState := mkLoaderState ∅ [] ∅.

Section DesignSystemCache.
Context {host : Host}.

(** [resolvedPath ?? `default:${rootDir}`], where [resolvedPath] is [null]
    when [cssPath] is [null] or the empty string. *)
Definition cache_key (rootDir : string) (cssPath : option string) : string :=
  let resolvedPath :=
    match cssPath with
    | Some p => if bool_decide (p = "") then None else Some (path_resolve rootDir p)
    | None => None
    end in
  default ("default:" +:+ rootDir) resolvedPath.

(** The call [loadTailwindDesignSystem(rootDir, cssPath)]: the load is
    started and its pending promise returned. *)
Definition start_load (st : LoaderState) (rootDir : string)
    (cssPath : option string) : nat * LoaderState :=
  (length (loadsStarted st),
   mkLoaderState (designSystemCache st)
     (loadsStarted st ++ [(rootDir, cssPath)]) (settledPromises st)).

(** The cache is filled on a miss; [designSystemCache.get(cacheKey)!] then
    finds the key. *)
Definition getDesignSystem (st : LoaderState) (rootDir : string)
    (cssPath : option string) : nat * LoaderState :=
  let cacheKey := cache_key rootDir cssPath in
  let st1 :=
    if bool_decide (is_Some (designSystemCache st !! cacheKey)) then st
    else
      let '(promise, st') := start_load st rootDir cssPath in
      mkLoaderState (<[cacheKey := promise]> (designSystemCache st'))
        (loadsStarted st') (settledPromises st') in
  (default 0 (designSystemCache st1 !! cacheKey), st1).

Definition clearDesignSystemCache (st : LoaderState) : LoaderState :=
  mkLoaderState ∅ (loadsStarted st) (settledPromises st).

(** What can run between two calls: other calls of [getDesignSystem],
    [clearDesignSystemCache], and the settling of a promise. *)
Inductive loader_event :=
| CallGetDesignSystem (rootDir : string) (cssPath : option string)
| CallClearDesignSystemCache
| PromiseSettles (promise : nat).

Definition run_event (st : LoaderState) (ev : loader_event) : LoaderState :=
  match ev with
  | CallGetDesignSystem rootDir cssPath => (getDesignSystem st rootDir cssPath).2
  | CallClearDesignSystemCache => clearDesignSystemCache st
  | PromiseSettles p =>
      mkLoaderState (designSystemCache st) (loadsStarted st) ({[p]} ∪ settledPromises st)
  end.

Definition is_clear (ev : loader_event) : bool :=
  match ev with CallClearDesignSystemCache => true | _ => false end.

(** The loads started so far for a cache key. *)
Definition loads_for (cacheKey : string) (st : LoaderState) : list (string * option string) :=
  filter (λ call, cache_key call.1 call.2 = cacheKey) (loadsStarted st).
End DesignSystemCache.

(** ** The batch driver ([packages/cli/src/cli.ts]) *)

Definition EXIT_SUCCESS : nat := 0.
Definition EXIT_FAILURE : nat := 1.

Inductive WriteMode := write | check.

Record CliArgs := mkCliArgs {
  targets : list string;
  rootDir : string;
  cssPath : option string;
  rootFontSize : nat;
  writeMode : WriteMode;
  verbose : bool;
  help : bool
}.

Inductive FileResultStatus := changed | unchanged | skipped | error.

Record FileResult := mkFileResult {
  filePath : string;
  status : FileResultStatus;
  editCount : nat;
  message : option string
}.

Global Instance WriteMode_eq_dec : EqDecision WriteMode.
Proof. solve_decision. Defined.
Global Instance FileResultStatus_eq_dec : EqDecision FileResultStatus.
Proof. solve_decision. Defined.
Global Instance FileResult_eq_dec : EqDecision FileResult.
Proof. solve_decision. Defined.

Record Summary := mkSummary {
  sum_changed : nat;
  sum_unchanged : nat;
  sum_skipped : nat;
  sum_errors : nat
}.

(** What the run prints; the wording of the lines is left out. *)
Inductive console_event :=
| LogUsage
| ErrorNoMatchingFiles
| ErrorDesignSystemNotDetected
| UnhandledRejection (message : string)
| LogResult (result : FileResult)
| ErrorResult (result : FileResult)
| LogDone (summary : Summary).

Global Instance Summary_eq_dec : EqDecision Summary.
Proof. solve_decision. Defined.
Global Instance console_event_eq_dec : EqDecision console_event.
Proof. solve_decision. Defined.

(** The file system, the glob library and the settled value of the promise
    [getDesignSystem] returns in a new process. A failed write can still
    have changed the file system. *)
Class Platform := {
  FS : Type;
  glob : FS → list string → string → list string;
  readFile : FS → string → outcome string;
  writeFile : FS → string → string → FS * outcome ();
  awaitDesignSystem : FS → string → option string → outcome (option DesignSystem)
}.

Record Run {platform : Platform} := mkRun {
  exitCode : nat;
  console : list console_event;
  results : list FileResult;
  fs_after : FS
}.
Global Arguments mkRun {_} _ _ _ _.

(** [s.split('\n')]. *)
Fixpoint split_lines (s : string) : list string :=
  match s with
  | "" => [""]
  | String c s' =>
      if bool_decide (c = "010"%char) then "" :: split_lines s'
      else
        match split_lines s' with
        | l :: ls => String c l :: ls
        | [] => [String c ""]
        end
  end.

(** A missing line is [undefined], which differs from every line. *)
Definition countChanges (original modified : string) : nat :=
  let originalLines := split_lines original in
  let modifiedLines := split_lines modified in
  let maxLen := length originalLines `max` length modifiedLines in
  length (filter (λ i, originalLines !! i ≠ modifiedLines !! i) (seq 0 maxLen)).

Definition summary_step (acc : Summary) (result : FileResult) : Summary :=
  let '(mkSummary c u s e) := acc in
  match status result with
  | changed => mkSummary (c + 1) u s e
  | unchanged => mkSummary c (u + 1) s e
  | skipped => mkSummary c u (s + 1) e
  | error => mkSummary c u s (e + 1)
  end.

Definition summarizeResults (results : list FileResult) : Summary :=
  foldl summary_step (mkSummary 0 0 0 0) results.

Section Cli.
Context {host : Host} {service : LanguageService} {platform : Platform}.

(** One iteration of the loop of [resolveTargetFiles] on [seen] and
    [result]. *)
Definition resolve_step (st : gset string * list string) (filePath : string)
  : gset string * list string :=
  let '(seen, result) := st in
  if negb (isSupportedExtension filePath) then st
  else if bool_decide (filePath ∈ seen) then st
  else ({[filePath]} ∪ seen, result ++ [filePath]).

Definition resolveTargetFiles (fs : FS) (targets : list string) (rootDir : string)
  : list string :=
  let files := glob fs targets rootDir in
  (foldl resolve_step (∅, []) files).2.

(** The [try] block of [processFile] with its [catch]. *)
Definition processFile (fs : FS) (filePath : string)
    (designSystem : DesignSystem) (args : CliArgs) : FileResult * FS :=
  let failed message fs' := (mkFileResult filePath error 0 (Some message), fs') in
  match readFile fs filePath with
  | Thrown message => failed message fs
  | Returned text =>
      match canonicalizeDocument text filePath designSystem (rootDir args)
              (Some (rootFontSize args)) with
      | Thrown message => failed message fs
      | Returned nextText =>
          if bool_decide (nextText = text)
          then (mkFileResult filePath unchanged 0 None, fs)
          else
            let editCount := countChanges text nextText in
            match writeMode args with
            | write =>
                match writeFile fs filePath nextText with
                | (fs', Thrown message) => failed message fs'
                | (fs', Returned _) => (mkFileResult filePath changed editCount None, fs')
                end
            | check => (mkFileResult filePath changed editCount None, fs)
            end
      end
  end.

(** The loop [for (const filePath of targets) results.push(...)]. *)
Definition process_step (designSystem : DesignSystem) (args : CliArgs)
    (st : list FileResult * FS) (filePath : string) : list FileResult * FS :=
  let '(results, fs) := st in
  let '(result, fs') := processFile fs filePath designSystem args in
  (results ++ [result], fs').

(** The per-file report of verbose and check runs. *)
Definition report_step (args : CliArgs) (out : list console_event)
    (result : FileResult) : list console_event :=
  if bool_decide (writeMode args = check) && negb (bool_decide (status result = changed))
  then out
  else if bool_decide (status result = error) then out ++ [ErrorResult result]
  else out ++ [LogResult result].

(** [main] on the parsed arguments. [process.exit] ends the run with the
    code given; a run that reaches the end of [main] ends with
    [EXIT_SUCCESS]. [main] does not catch a rejected [getDesignSystem]:
    Node reports the unhandled rejection and ends the process with code 1. *)
Definition main (fs : FS) (args : CliArgs) : Run :=
  if help args || bool_decide (length (targets args) = 0) then
    mkRun (if bool_decide (length (targets args) = 0) then EXIT_FAILURE else EXIT_SUCCESS)
      [LogUsage] [] fs
  else
    let targets := resolveTargetFiles fs (targets args) (rootDir args) in
    if bool_decide (length targets = 0) then
      mkRun EXIT_FAILURE [ErrorNoMatchingFiles] [] fs
    else
      match awaitDesignSystem fs (rootDir args) (cssPath args) with
      | Thrown message => mkRun EXIT_FAILURE [UnhandledRejection message] [] fs
      | Returned designSystem =>
          match designSystem with
          | Some (mkDesignSystem (Some canonicalize) invalid) =>
              let designSystem := mkDesignSystem (Some canonicalize) invalid in
              let '(results, fs') :=
                foldl (process_step designSystem args) ([], fs) targets in
              let summary := summarizeResults results in
              let report :=
                if verbose args || bool_decide (writeMode args = check)
                then foldl (report_step args) [] results
                else [] in
              mkRun (if bool_decide (0 < sum_errors summary) then EXIT_FAILURE
                     else EXIT_SUCCESS)
                (report ++ [LogDone summary]) results fs'
          | _ => mkRun EXIT_FAILURE [ErrorDesignSystemNotDetected] [] fs
          end
      end.
End Cli.

(** ** Notions of the specification

    The definitions below follow the words of the specification, or name
    what its statements speak of; the theorems compare them with the code
    above. *)

(** Edits in the order "descending [startOffset]". *)
Definition descending_start (a b : TextEdit) : Prop := startOffset b ≤ startOffset a.

(** "[edit.endOffset > lastAppliedStart]", with [lastAppliedStart]
    initialized to +infinity. *)
Definition overlaps_applied (edit : TextEdit) (lastAppliedStart : bound) : Prop :=
  match lastAppliedStart with
  | PosInfinity => False
  | Finite start => endOffset edit > start
  end.

(** The overlap policy of the edit applier, as the specification words it:
    with [lastAppliedStart] and the text so far, the edits taken in order
    lead to the final text. An edit that overlaps the edit applied to its
    right is skipped; any other edit is spliced into
    [[startOffset, endOffset)] and [lastAppliedStart] becomes its
    [startOffset]. *)
Inductive applied_in_order : bound → string → list TextEdit → string → Prop :=
| applied_done lastAppliedStart text :
    applied_in_order lastAppliedStart text [] text
| applied_skip lastAppliedStart text edit rest final :
    overlaps_applied edit lastAppliedStart →
    applied_in_order lastAppliedStart text rest final →
    applied_in_order lastAppliedStart text (edit :: rest) final
| applied_splice lastAppliedStart text edit rest final :
    ¬ overlaps_applied edit lastAppliedStart →
    applied_in_order (Finite (startOffset edit))
      (JsString.take (startOffset edit) text +:+ replacement edit
         +:+ JsString.drop (endOffset edit) text) rest final →
    applied_in_order lastAppliedStart text (edit :: rest) final.

(** The invariant of a [TextEdit]. *)
Definition valid_edit (edit : TextEdit) : Prop := startOffset edit < endOffset edit.

(** Two half-open ranges that share no position. *)
Definition disjoint_ranges (a b : TextEdit) : Prop :=
  endOffset a ≤ startOffset b ∨ endOffset b ≤ startOffset a.

Fixpoint pairwise_non_overlapping (edits : list TextEdit) : Prop :=
  match edits with
  | [] => True
  | edit :: rest => Forall (disjoint_ranges edit) rest ∧ pairwise_non_overlapping rest
  end.

(** An edit ends where the edit before it, in descending order, has not yet
    started. *)
Definition ends_before (a b : TextEdit) : Prop := endOffset b ≤ startOffset a.

(** The edits the applier does not skip, out of a list it takes in order. *)
Fixpoint surviving (lastAppliedStart : bound) (edits : list TextEdit) : list TextEdit :=
  match edits with
  | [] => []
  | edit :: rest =>
      if exceeds (endOffset edit) lastAppliedStart then surviving lastAppliedStart rest
      else edit :: surviving (Finite (startOffset edit)) rest
  end.

(** The text between [cursor] and [limit] in which the ranges of the edits,
    given from left to right, are replaced: offsets into the original
    text. *)
Fixpoint replace_between (text : string) (cursor limit : nat)
    (ascending : list TextEdit) : string :=
  match ascending with
  | [] => JsString.slice text cursor limit
  | edit :: rest =>
      JsString.slice text cursor (startOffset edit) +:+ replacement edit
        +:+ replace_between text (endOffset edit) limit rest
  end.

Definition replace_ranges (text : string) (ascending : list TextEdit) : string :=
  replace_between text 0 (String.length text) ascending.

(** A string without the separator of [edit_key]. *)
Fixpoint no_colon (s : string) : Prop :=
  match s with
  | "" => True
  | String c s' => c ≠ ":"%char ∧ no_colon s'
  end.

Definition same_range (a b : TextEdit) : Prop :=
  startOffset a = startOffset b ∧ endOffset a = endOffset b.

Global Instance same_range_dec a b : Decision (same_range a b).
Proof. unfold same_range. apply _. Defined.

(** Deduplication as the specification words it: an edit is dropped when an
    earlier edit of the input has its [(startOffset, endOffset)] pair. *)
Fixpoint first_of_each_range (earlier edits : list TextEdit) : list TextEdit :=
  match edits with
  | [] => []
  | edit :: rest =>
      if bool_decide (Exists (same_range edit) earlier)
      then first_of_each_range (earlier ++ [edit]) rest
      else edit :: first_of_each_range (earlier ++ [edit]) rest
  end.

(** The number of results with a given status. *)
Definition count_status (st : FileResultStatus) (results : list FileResult) : nat :=
  length (filter (λ r, status r = st) results).

Section TranslatorSpec.
Context {service : LanguageService}.

Definition start_of (document : TextDocument) (d : Diagnostic) : nat :=
  offsetAt document (range_start (range d)).
Definition end_of (document : TextDocument) (d : Diagnostic) : nat :=
  offsetAt document (range_end (range d)).

(** The primary suggestion of a diagnostic, when it carries one. *)
Definition primary_suggestion (d : Diagnostic) : option string :=
  match suggestions d with
  | Some (s :: _) => Some s
  | _ => None
  end.

(** The edit the specification derives from a diagnostic: its range, its
    primary suggestion and the text of its range. *)
Definition edit_for (document : TextDocument) (d : Diagnostic) (s : string) : TextEdit :=
  mkTextEdit (start_of document d) (end_of document d) s
    (JsString.slice (content document) (start_of document d) (end_of document d)).

(** A diagnostic the translator turns into an edit. *)
Definition translatable (document : TextDocument) (d : Diagnostic) (s : string) : Prop :=
  isSuggestCanonicalClasses d = true ∧ primary_suggestion d = Some s ∧ s ≠ ""
  ∧ start_of document d < end_of document d.

Definition translate (document : TextDocument) (d : Diagnostic) : option TextEdit :=
  match primary_suggestion d with
  | Some s =>
      if bool_decide (isSuggestCanonicalClasses d = true ∧ s ≠ ""
                      ∧ start_of document d < end_of document d)
      then Some (edit_for document d s) else None
  | None => None
  end.

(** Diagnostics whose ranges share no position, pairwise. *)
Fixpoint non_overlapping_diagnostics (document : TextDocument)
    (diagnostics : list Diagnostic) : Prop :=
  match diagnostics with
  | [] => True
  | d :: rest =>
      Forall (λ d', end_of document d ≤ start_of document d'
                    ∨ end_of document d' ≤ start_of document d) rest
      ∧ non_overlapping_diagnostics document rest
  end.
End TranslatorSpec.

(** ** Concrete collaborators

    Small stand-ins for the host, the analyzer and the file system, on which
    the functions above can be run. *)

Module Fixtures.

(** The part of a path after its last slash. *)
Fixpoint basename_go (s cur : string) : string :=
  match s with
  | "" => cur
  | String c s' => if bool_decide (c = "/"%char) then basename_go s' s' else basename_go s' cur
  end.

(** The part of a string from its last dot, [cur] when it has none. *)
Fixpoint last_dot (s : string) (cur : string) : string :=
  match s with
  | "" => cur
  | String c s' => last_dot s' (if bool_decide (c = "."%char) then s else cur)
  end.

(** The extension of the last segment of a path that does not end with a
    slash: from its last dot, unless that dot starts the segment. *)
Definition posix_extname (p : string) : string :=
  match basename_go p p with
  | "" | ".." => ""
  | String _ rest => last_dot rest ""
  end.

(** Lower case of the letters [A] to [Z]. *)
Definition lower_char (c : ascii) : ascii :=
  let n := nat_of_ascii c in
  if bool_decide (65 ≤ n ≤ 90) then ascii_of_nat (n + 32) else c.

Fixpoint ascii_lower (s : string) : string :=
  match s with
  | "" => ""
  | String c s' => String (lower_char c) (ascii_lower s')
  end.

(** An absolute path resolves to itself, any other path below [base]; the
    result is not normalized. *)
Definition posix_resolve (base p : string) : string :=
  match p with
  | String "/" _ => p
  | _ => base +:+ "/" +:+ p
  end.

Definition posix_host : Host :=
  {| extname := posix_extname;
     toLowerCase := ascii_lower;
     pathToFileURL := λ p, "file://" +:+ p;
     path_resolve := posix_resolve |}.

(** Offsets in a document of one line. *)
Definition single_line_offset (document : TextDocument) (p : Position) : nat :=
  if bool_decide (line p = 0) then character p `min` String.length (content document)
  else String.length (content document).

(** A language service whose analyzer is the function [analyze] of the
    document text. *)
Program Definition scripted_service (analyze : string → outcome (list Diagnostic))
  : LanguageService :=
  {| Settings := nat;
     State := ();
     defaultSettingsWithRootFontSize := λ n, n;
     createState := λ _, ();
     doValidate := λ _ document, analyze (content document);
     offsetAt := single_line_offset;
     getText := λ document r,
       JsString.slice (content document)
         (single_line_offset document (range_start r))
         (single_line_offset document (range_end r)) |}.
Next Obligation. reflexivity. Qed.

(** A canonical-class diagnostic on columns [b] to [e] of the first line. *)
Definition suggest (b e : nat) (s : list string) : Diagnostic :=
  mkDiagnostic true (Some s) (mkRange (mkPosition 0 b) (mkPosition 0 e)).


(** An analyzer that reports the range of [mt-[16px]] twice. *)
Definition repeating_analyzer (text : string) : outcome (list Diagnostic) :=
  if bool_decide (text = "mt-[16px]")
  then Returned [suggest 0 9 ["mt-4"]; suggest 0 9 ["mt-[1rem]"]]
  else Returned [].

(** An analyzer whose only suggestion for [mt-[16px]] is the empty string. *)
Definition empty_suggestion_analyzer (text : string) : outcome (list Diagnostic) :=
  if bool_decide (text = "mt-[16px]") then Returned [suggest 0 9 [""]]
  else Returned [].

(** An analyzer that reports nothing. *)
Definition silent_analyzer (text : string) : outcome (list Diagnostic) := Returned [].

(** An analyzer that reports [p-[8px]] at the start of a document, and
    keeps reporting the canonical [p-2] with itself as suggestion. *)
Definition spacing_analyzer (text : string) : outcome (list Diagnostic) :=
  if bool_decide (JsString.take 7 text = "p-[8px]") then Returned [suggest 0 7 ["p-2"]]
  else if bool_decide (JsString.take 3 text = "p-2") then Returned [suggest 0 3 ["p-2"]]
  else Returned [].

(** An analyzer for the document [mt-[16px] p-[8px]], which reports its
    second class first. *)
Definition scale_analyzer (text : string) : outcome (list Diagnostic) :=
  if bool_decide (text = "mt-[16px] p-[8px]")
  then Returned [suggest 10 17 ["p-2"]; suggest 0 9 ["mt-4"]]
  else Returned [].

Definition a_design_system : DesignSystem := mkDesignSystem (Some (λ classes, classes)) None.

(** A file system as a map from the paths of its files to their contents,
    [None] for a file that cannot be read; a pattern matches the file it
    names; the design system is the one given. *)
Definition memory_platform (designSystem : option DesignSystem) : Platform :=
  {| FS := gmap string (option string);
     glob := λ fs patterns cwd,
       filter (λ p, is_Some (fs !! p)) (posix_resolve cwd <$> patterns);
     readFile := λ fs p,
       match fs !! p with
       | Some (Some text) => Returned text
       | Some None => Thrown "EACCES"
       | None => Thrown "ENOENT"
       end;
     writeFile := λ fs p text, (<[p := Some text]> fs, Returned ());
     awaitDesignSystem := λ _ _ _, Returned designSystem |}.

(** The arguments of a plain run in write mode from the root [/app]. *)
Definition args_for (targets : list string) : CliArgs :=
  mkCliArgs targets "/app" None 16 write false false.

(** A project with a supported file that is canonical, one that is not, one
    that cannot be read and an image. *)
Definition project : gmap string (option string) :=
  <["/app/logo.png" := Some "PNG"]>
    (<["/app/page.html" := Some "p-2 m-1"]>
       (<["/app/old.html" := Some "p-[8px] m-1"]>
          (<["/app/locked.html" := None]> ∅))).

(** The run of the batch driver on [project]. *)
Definition batch (designSystem : option DesignSystem) (targets : list string) :=
  main (host := posix_host) (service := scripted_service spacing_analyzer)
    (platform := memory_platform designSystem) project (args_for targets).

End Fixtures.

(** ** Stylesheet and module resolution ([design-system.ts])

    The callbacks [loadTailwindDesignSystem] hands to Tailwind's
    [__unstable__loadDesignSystem], and the helpers they call. Node's
    [path] functions beyond those of [Host], [createRequire(...).resolve],
    [fs.stat] and [jiti.import] belong to the host. *)

(** The [switch (id)] of [mapTailwindCssAlias]. *)
Definition mapTailwindCssAlias (id : string) : string :=
  if bool_decide (id = "tailwindcss") then "tailwindcss/index.css"
  else if bool_decide (id = "tailwindcss/index") then "tailwindcss/index.css"
  else if bool_decide (id = "tailwindcss/preflight") then "tailwindcss/preflight.css"
  else if bool_decide (id = "tailwindcss/theme") then "tailwindcss/theme.css"
  else if bool_decide (id = "tailwindcss/utilities") then "tailwindcss/utilities.css"
  else id.

(** [id.startsWith('.')]. *)
Definition startsWith_dot (id : string) : bool :=
  match id with
  | String "." _ => true
  | _ => false
  end.

(** [!value] on a [string | null]: it holds of [null] and of the empty
    string. *)
Definition is_falsy (value : option string) : bool :=
  match value with
  | None | Some "" => true
  | Some _ => false
  end.

Class NodePath := {
  path_isAbsolute : string → bool;
  path_join : list string → string;
  path_dirname : string → string
}.

(** [resolver.resolve(id, { paths: [baseDir] })], which throws when the
    module is not found; [(await fs.stat(p)).isFile()], which throws when
    there is nothing at [p]; [jiti.import(href, { default: true })]; and the
    two values [fallbackModule] and the callbacks return for a missing
    resource, [() => {}] and [{}]. *)
Class ModuleLoader {platform : Platform} := {
  Exports : Type;
  require_resolve : FS → string → string → outcome string;
  stat_isFile : FS → string → outcome bool;
  jiti_import : FS → string → outcome Exports;
  noop_plugin : Exports;
  empty_object : Exports
}.

Section DesignSystemLoader.
Context {host : Host} {paths : NodePath} {platform : Platform} {loader : ModuleLoader}.

Definition fileExists (fs : FS) (filePath : string) : bool :=
  match stat_isFile fs filePath with
  | Returned isFile => isFile
  | Thrown _ => false
  end.

Definition fallbackModule (resourceType : string) : Exports :=
  if bool_decide (resourceType = "plugin") then noop_plugin else empty_object.

Definition resolveModulePath (fs : FS) (id baseDir : string) : option string :=
  if path_isAbsolute id then Some id
  else if startsWith_dot id then Some (path_resolve baseDir id)
  else
    match require_resolve fs id baseDir with
    | Returned resolved => Some resolved
    | Thrown _ =>
        let fallback := path_join [baseDir; "node_modules"; id] in
        if fileExists fs fallback then Some fallback else None
    end.

Definition resolveStylesheetPath (fs : FS) (id baseDir : string) : option string :=
  let aliased := mapTailwindCssAlias id in
  resolveModulePath fs aliased baseDir.

(** The callback [loadStylesheet]: the pair of [base] and [content]. *)
Definition loadStylesheet (fs : FS) (id base : string) : outcome (string * string) :=
  let resolved := resolveStylesheetPath fs id base in
  if is_falsy resolved then mret (base, "")
  else
    let resolved := default "" resolved in
    content ← readFile fs resolved;
    mret (path_dirname resolved, content).

(** The callback [loadModule]: the pair of [base] and [module]. *)
Definition loadModule (fs : FS) (id base resourceType : string)
  : outcome (string * Exports) :=
  let resolved := resolveModulePath fs id base in
  if is_falsy resolved then mret (base, fallbackModule resourceType)
  else
    let resolved := default "" resolved in
    let url := pathToFileURL resolved in
    module ← jiti_import fs url;
    mret (path_dirname resolved, module).

(** The callbacks [loadConfig] and [loadPlugin], which close over
    [cssBase]. *)
Definition loadConfig (fs : FS) (cssBase id : string) : outcome Exports :=
  let resolved := resolveModulePath fs id cssBase in
  if is_falsy resolved then mret empty_object
  else jiti_import fs (pathToFileURL (default "" resolved)).

Definition loadPlugin (fs : FS) (cssBase id : string) : outcome Exports :=
  let resolved := resolveModulePath fs id cssBase in
  if is_falsy resolved then mret noop_plugin
  else jiti_import fs (pathToFileURL (default "" resolved)).

End DesignSystemLoader.

(** A state of the loader in which every cached promise is the promise of a
    load started for its own cache key. *)
Definition cache_consistent {host : Host} (st : LoaderState) : Prop :=
  ∀ cacheKey promise,
    designSystemCache st !! cacheKey = Some promise →
    ∃ call, loadsStarted st !! promise = Some call
            ∧ cache_key call.1 call.2 = cacheKey.

(** ** The Prettier plugin ([packages/prettier-plugin])

    A promise of the design-system cache settles once; [settled] gives the
    value a caller that awaits it receives. [process.cwd()] is the
    directory Prettier runs in. *)

Class Runtime := {
  cwd : string;
  settled : nat → outcome DesignSystem
}.

(** The options of Prettier a preprocess function reads: [filepath] and the
    two options of the plugin, which the entry module names
    [tailwindcssCanonicalStylesheet] and [tailwindcssCanonicalRootFontSize]
    and [parsers.ts] names [tailwindCanonicalStylesheet] and
    [tailwindCanonicalRootFontSize]. *)
Record PluginOptions := mkPluginOptions {
  filepath : option string;
  canonicalStylesheet : option string;
  canonicalRootFontSize : option nat
}.

(** The plugin's entry module, delivered with [options.ts]: [preprocess] for
    the parser [parserName], as a transition of the loader state. A parser
    name is looked up among the keys the object literal lists. *)
Module Plugin.

Definition PARSER_EXTENSION_MAP : gmap string string :=
  list_to_map
    [("html", ".html"); ("vue", ".vue"); ("angular", ".html"); ("lwc", ".html");
     ("babel", ".jsx"); ("babel-flow", ".jsx"); ("babel-ts", ".tsx");
     ("typescript", ".ts"); ("flow", ".js"); ("acorn", ".js"); ("meriyah", ".js");
     ("espree", ".js"); ("css", ".css"); ("scss", ".scss"); ("less", ".less");
     ("astro", ".astro"); ("svelte", ".svelte"); ("mdx", ".mdx")].

(** [Object.keys(PARSER_CONFIG)]: the parsers the plugin registers. *)
Definition PARSER_CONFIG : list string :=
  ["html"; "vue"; "angular"; "lwc"; "babel"; "babel-flow"; "babel-ts"; "typescript";
   "flow"; "acorn"; "meriyah"; "espree"; "css"; "scss"; "less"; "mdx"].

Section Preprocess.
Context {host : Host} {service : LanguageService} {runtime : Runtime}.

(** [opts.filepath ?? `untitled${PARSER_EXTENSION_MAP[parserName] ?? '.txt'}`]. *)
Definition file_path_of (parserName : string) (opts : PluginOptions) : string :=
  default ("untitled" +:+ default ".txt" (PARSER_EXTENSION_MAP !! parserName))
    (filepath opts).

Definition createPreprocess (parserName : string) (st : LoaderState)
    (text : string) (opts : PluginOptions) : string * LoaderState :=
  let filePath := file_path_of parserName opts in
  let languageId := inferLanguageId filePath in
  if is_falsy languageId then (text, st)
  else
    let projectRoot := cwd in
    let '(promise, st') := getDesignSystem st projectRoot (canonicalStylesheet opts) in
    let attempt :=
      designSystem ← settled promise;
      canonicalizeDocument text filePath designSystem projectRoot
        (Some (default 16 (canonicalRootFontSize opts))) in
    match attempt with
    | Returned canonical => (canonical, st')
    | Thrown _ => (text, st')
    end.

(** Prettier formatting one file after the other in one process. *)
Definition preprocess_step (st : LoaderState)
    (call : string * string * PluginOptions) : LoaderState :=
  let '(parserName, text, opts) := call in
  (createPreprocess parserName st text opts).2.
End Preprocess.
End Plugin.

(** [parsers.ts] of the plugin: [createPreprocessor], which takes the
    directory of the file as project root. *)
Module PluginParsers.

Definition PARSER_EXTENSION_MAP : gmap string string :=
  list_to_map
    [("html", ".html"); ("vue", ".vue"); ("angular", ".html"); ("lwc", ".html");
     ("babel", ".jsx"); ("babel-flow", ".jsx"); ("babel-ts", ".tsx");
     ("typescript", ".ts"); ("flow", ".js"); ("acorn", ".js"); ("meriyah", ".js");
     ("espree", ".js"); ("css", ".css"); ("scss", ".scss"); ("less", ".less");
     ("astro", ".astro"); ("svelte", ".svelte"); ("marko", ".marko"); ("mdx", ".mdx");
     ("pug", ".pug"); ("liquid", ".liquid"); ("twig", ".twig"); ("glimmer", ".hbs")].

Definition SUPPORTED_PARSERS : list string :=
  ["html"; "vue"; "angular"; "lwc"; "babel"; "babel-flow"; "babel-ts"; "typescript";
   "flow"; "acorn"; "meriyah"; "espree"; "css"; "scss"; "less"; "astro"; "svelte";
   "mdx"].

Section Preprocessor.
Context {host : Host} {paths : NodePath} {service : LanguageService} {runtime : Runtime}.

Definition file_path_of (parserName : string) (options : PluginOptions) : string :=
  default ("untitled" +:+ default ".txt" (PARSER_EXTENSION_MAP !! parserName))
    (filepath options).

(** [options.filepath ? path.dirname(options.filepath) : process.cwd()]. *)
Definition project_root_of (options : PluginOptions) : string :=
  if is_falsy (filepath options) then cwd
  else path_dirname (default "" (filepath options)).

Definition createPreprocessor (parserName : string) (st : LoaderState)
    (text : string) (options : PluginOptions) : string * LoaderState :=
  let filePath := file_path_of parserName options in
  let languageId := inferLanguageId filePath in
  if is_falsy languageId then (text, st)
  else
    let projectRoot := project_root_of options in
    let '(promise, st') :=
      getDesignSystem st projectRoot (canonicalStylesheet options) in
    let attempt :=
      designSystem ← settled promise;
      canonicalizeDocument text filePath designSystem projectRoot
        (Some (default 16 (canonicalRootFontSize options))) in
    match attempt with
    | Returned canonical => (canonical, st')
    | Thrown _ => (text, st')
    end.
End Preprocessor.
End PluginParsers.

(** ** The single-file command line tool ([src/cli.ts])

    Its [inferLanguageId], [createTextDocument], [buildCanonicalEdits],
    [dedupeEdits], [applyTextEdits], [summarizeResults] and the loop of
    [resolveTargetFiles] have the text of the functions embedded above;
    [processFile] works on a language-service state and counts edits. *)
Module Legacy.
Section LegacyCli.
Context {host : Host} {service : LanguageService} {platform : Platform}.

Definition processFile (fs : FS) (state : State) (filePath : string)
    (writeMode : WriteMode) : FileResult * FS :=
  let failed message fs' := (mkFileResult filePath error 0 (Some message), fs') in
  match readFile fs filePath with
  | Thrown message => failed message fs
  | Returned text =>
      let languageId := inferLanguageId filePath in
      if is_falsy languageId
      then (mkFileResult filePath skipped 0 (Some "Unsupported extension"), fs)
      else
        let document := createTextDocument filePath (default "" languageId) text in
        match buildCanonicalEdits state document with
        | Thrown message => failed message fs
        | Returned edits =>
            if bool_decide (length edits = 0)
            then (mkFileResult filePath unchanged 0 None, fs)
            else
              let nextText := applyTextEdits text edits in
              if bool_decide (nextText = text)
              then (mkFileResult filePath unchanged 0 None, fs)
              else
                match writeMode with
                | write =>
                    match writeFile fs filePath nextText with
                    | (fs', Thrown message) => failed message fs'
                    | (fs', Returned _) =>
                        (mkFileResult filePath changed (length edits) None, fs')
                    end
                | check => (mkFileResult filePath changed (length edits) None, fs)
                end
        end
  end.

Definition process_step (state : State) (writeMode : WriteMode)
    (st : list FileResult * FS) (filePath : string) : list FileResult * FS :=
  let '(results, fs) := st in
  let '(result, fs') := processFile fs state filePath writeMode in
  (results ++ [result], fs').

(** [main] on the parsed arguments; [loaded] is the settled value of the
    tool's own [loadTailwindDesignSystem(args.rootDir, args.cssPath)], which
    gives [null] where the function of the core package throws. *)
Definition main (fs : FS) (args : CliArgs) (loaded : outcome (option DesignSystem))
  : Run :=
  if help args || bool_decide (length (targets args) = 0) then
    mkRun (if bool_decide (length (targets args) = 0) then EXIT_FAILURE else EXIT_SUCCESS)
      [LogUsage] [] fs
  else
    let targets := resolveTargetFiles fs (targets args) (rootDir args) in
    if bool_decide (length targets = 0) then
      mkRun EXIT_FAILURE [ErrorNoMatchingFiles] [] fs
    else
      let settings := createSettings (rootFontSize args) in
      match loaded with
      | Thrown message => mkRun EXIT_FAILURE [UnhandledRejection message] [] fs
      | Returned designSystem =>
          match designSystem with
          | Some (mkDesignSystem (Some canonicalize) invalid) =>
              let designSystem := mkDesignSystem (Some canonicalize) invalid in
              let state :=
                createState
                  (mkStateOptions true designSystem
                     (default [] (invalidCandidates designSystem)) (rootDir args)
                     settings) in
              let '(results, fs') :=
                foldl (process_step state (writeMode args)) ([], fs) targets in
              let summary := summarizeResults results in
              let report :=
                if verbose args || bool_decide (writeMode args = check)
                then foldl (report_step args) [] results
                else [] in
              mkRun (if bool_decide (0 < sum_errors summary) then EXIT_FAILURE
                     else EXIT_SUCCESS)
                (report ++ [LogDone summary]) results fs'
          | _ => mkRun EXIT_FAILURE [ErrorDesignSystemNotDetected] [] fs
          end
      end.
End LegacyCli.
End Legacy.

(** ** Further notions *)

(** [lines.join('\n')]. *)
Fixpoint join_lines (lines : list string) : string :=
  match lines with
  | [] => ""
  | [l] => l
  | l :: rest => l +:+ String "010"%char (join_lines rest)
  end.

(** The members of a list that are not in [earlier], each kept where it
    occurs first. *)
Fixpoint first_occurrences (earlier l : list string) : list string :=
  match l with
  | [] => []
  | x :: rest =>
      if bool_decide (x ∈ earlier) then first_occurrences earlier rest
      else x :: first_occurrences (x :: earlier) rest
  end.

(** The characters the edits of a list remove and insert. *)
Definition removed_length (edits : list TextEdit) : nat :=
  sum_list ((λ edit, endOffset edit - startOffset edit) <$> edits).
Definition inserted_length (edits : list TextEdit) : nat :=
  sum_list ((λ edit, String.length (replacement edit)) <$> edits).

(** A result without its [editCount]. *)
Definition forget_count (result : FileResult) : FileResult :=
  mkFileResult (filePath result) (status result) 0 (message result).

(** The lines of the per-file report, by mode. *)
Definition report_lines (args : CliArgs) (results : list FileResult) : list console_event :=
  match writeMode args with
  | check => LogResult <$> filter (λ r, status r = changed) results
  | write =>
      if verbose args
      then (λ r, if bool_decide (status r = error) then ErrorResult r else LogResult r)
             <$> results
      else []
  end.

(** ** Further concrete collaborators *)

Module MoreFixtures.
Import Fixtures.

Definition posix_isAbsolute (p : string) : bool :=
  match p with
  | String "/" _ => true
  | _ => false
  end.

(** The path without its last segment; the result is not normalized. *)
Definition posix_dirname (p : string) : string :=
  let base := basename_go p p in
  let dir := JsString.take (String.length p - String.length base - 1) p in
  if bool_decide (dir = "") then (if posix_isAbsolute p then "/" else ".") else dir.

Fixpoint posix_join (parts : list string) : string :=
  match parts with
  | [] => "."
  | [p] => p
  | p :: rest => p +:+ "/" +:+ posix_join rest
  end.

Definition posix_paths : NodePath :=
  {| path_isAbsolute := posix_isAbsolute;
     path_join := posix_join;
     path_dirname := posix_dirname |}.

Definition memory_stat (fs : gmap string (option string)) (p : string) : outcome bool :=
  match fs !! p with
  | Some _ => Returned true
  | None => Thrown "ENOENT"
  end.

(** A module loader on the file system in memory: the resolver of Node
    finds nothing, a module is its own URL. *)
Definition memory_loader (designSystem : option DesignSystem)
  : ModuleLoader (platform := memory_platform designSystem) :=
  @Build_ModuleLoader (memory_platform designSystem) string
    (λ _ _ _, Thrown "MODULE_NOT_FOUND") memory_stat (λ _ url, Returned url)
    "() => {}" "{}".

(** A process in [/app] in which every load gives the same design system,
    and one in which every load fails. *)
Definition app_runtime : Runtime :=
  {| cwd := "/app"; settled := λ _, Returned a_design_system |}.
Definition failing_runtime : Runtime :=
  {| cwd := "/app"; settled := λ _, Thrown "Tailwind CSS v4 is required." |}.

(** An analyzer that fails. *)
Definition failing_analyzer (text : string) : outcome (list Diagnostic) :=
  Thrown "analysis failed".

(** The arguments of a run in check mode from the root [/app]. *)
Definition check_args_for (targets : list string) : CliArgs :=
  mkCliArgs targets "/app" None 16 check false false.

End MoreFixtures.

(** * Properties *)

(** ** Strings *)

Module JsStringFacts.
Import JsString.

Lemma app_cons c s t : String c s +:+ t = String c (s +:+ t).
Proof. reflexivity. Qed.

Lemma app_empty_l s : "" +:+ s = s.
Proof. reflexivity. Qed.

Lemma take_0 s : take 0 s = "".
Proof. reflexivity. Qed.

Lemma drop_0 s : drop 0 s = s.
Proof. reflexivity. Qed.

Lemma slice_0 s n : slice s 0 n = take n s.
Proof. unfold slice. by rewrite Nat.sub_0_r, drop_0. Qed.




Lemma app_empty_r s : s +:+ "" = s.
Proof. induction s as [|c s IH]; [done|]. by rewrite app_cons, IH. Qed.

Lemma app_assoc a b c : (a +:+ b) +:+ c = a +:+ b +:+ c.
Proof. induction a as [|x a IH]; [done|]. by rewrite !app_cons, IH. Qed.

Lemma length_app a b : String.length (a +:+ b) = String.length a + String.length b.
Proof. induction a as [|c a IH]; [done|]. rewrite app_cons. simpl. by rewrite IH. Qed.

Lemma length_take n s : String.length (take n s) = n `min` String.length s.
Proof.
  revert s. induction n as [|n IH]; intros [|c s]; simpl; try done.
  by rewrite IH.
Qed.

Lemma length_drop n s : String.length (drop n s) = String.length s - n.
Proof.
  revert s. induction n as [|n IH]; intros [|c s]; simpl; try done; lia.
Qed.

Lemma take_ge n s : String.length s ≤ n → take n s = s.
Proof.
  revert s. induction n as [|n IH]; intros [|c s]; simpl; try done; [lia|].
  intros Hle. rewrite IH; [done|lia].
Qed.

Lemma take_app_le n a b : n ≤ String.length a → take n (a +:+ b) = take n a.
Proof.
  revert a. induction n as [|n IH]; intros [|c a]; simpl; try done; [lia|].
  intros Hle. rewrite ?app_cons. simpl. rewrite IH; [done|lia].
Qed.

Lemma drop_app_le n a b : n ≤ String.length a → drop n (a +:+ b) = drop n a +:+ b.
Proof.
  revert a. induction n as [|n IH]; intros [|c a]; simpl; try done; [lia|].
  intros Hle. rewrite ?app_cons. simpl. apply IH. lia.
Qed.

Lemma take_take n m s : n ≤ m → take n (take m s) = take n s.
Proof.
  revert m s. induction n as [|n IH]; intros [|m] [|c s]; simpl; try done; [lia|].
  intros Hle. rewrite IH; [done|lia].
Qed.

Lemma drop_take n m s : drop n (take m s) = slice s n m.
Proof.
  unfold slice. revert m s. induction n as [|n IH]; intros m s.
  - by rewrite Nat.sub_0_r.
  - destruct m as [|m], s as [|c s]; simpl; try done.
    by destruct (m - n).
Qed.

Lemma slice_to_end s n : slice s n (String.length s) = drop n s.
Proof. unfold slice. apply take_ge. rewrite length_drop. lia. Qed.
End JsStringFacts.

(** ** Sorting *)

Section ArraySortFacts.
Context {A : Type} (cmp : A → A → Z).

Lemma sort_insert_Permutation x l : sort_insert cmp x l ≡ₚ x :: l.
Proof.
  induction l as [|y l IH]; simpl; [done|].
  case_bool_decide; [done|]. by rewrite IH, Permutation_swap.
Qed.

Lemma array_sort_Permutation l : array_sort cmp l ≡ₚ l.
Proof.
  induction l as [|x l IH]; simpl; [done|].
  by rewrite sort_insert_Permutation, IH.
Qed.

Lemma array_sort_length l : length (array_sort cmp l) = length l.
Proof. by rewrite array_sort_Permutation. Qed.
End ArraySortFacts.

Lemma by_descending_start_le a b :
  (by_descending_start a b ≤ 0)%Z ↔ descending_start a b.
Proof. unfold by_descending_start, descending_start. lia. Qed.

Lemma descending_start_trans a b c :
  descending_start a b → descending_start b c → descending_start a c.
Proof. unfold descending_start. lia. Qed.

Lemma sort_insert_descending x l :
  StronglySorted descending_start l →
  StronglySorted descending_start (sort_insert by_descending_start x l).
Proof.
  induction 1 as [|y l Hl IH Hy]; simpl.
  { repeat constructor. }
  case_bool_decide as Hc.
  - apply by_descending_start_le in Hc.
    constructor; [by constructor|].
    constructor; [done|].
    eapply Forall_impl; [exact Hy|]. intros z Hz.
    by apply (descending_start_trans x y z).
  - constructor; [done|].
    rewrite sort_insert_Permutation. constructor; [|done].
    rewrite by_descending_start_le in Hc.
    unfold descending_start in *. lia.
Qed.

Lemma array_sort_descending l :
  StronglySorted descending_start (array_sort by_descending_start l).
Proof.
  induction l as [|x l IH]; simpl; [constructor|].
  by apply sort_insert_descending.
Qed.

(** Edits with the same start keep their input order. *)
Example array_sort_stable :
  array_sort by_descending_start
    [mkTextEdit 3 5 "a" ""; mkTextEdit 7 8 "b" ""; mkTextEdit 3 4 "c" ""]
  = [mkTextEdit 7 8 "b" ""; mkTextEdit 3 5 "a" ""; mkTextEdit 3 4 "c" ""].
Proof. reflexivity. Qed.

(** ** The edit applier *)

Lemma splice_eq output edit :
  splice output edit =
  JsString.take (startOffset edit) output +:+ replacement edit
    +:+ JsString.drop (endOffset edit) output.
Proof. unfold splice. by rewrite JsStringFacts.slice_0. Qed.

Lemma exceeds_overlaps edit lastStart :
  exceeds (endOffset edit) lastStart = true ↔ overlaps_applied edit lastStart.
Proof.
  destruct lastStart as [|start]; simpl; [done|].
  rewrite bool_decide_eq_true. lia.
Qed.

Lemma apply_loop_applied edits output lastStart :
  applied_in_order lastStart output edits
    (foldl apply_step (output, lastStart) edits).1.
Proof.
  revert output lastStart.
  induction edits as [|edit rest IH]; intros output lastStart; simpl.
  { constructor. }
  destruct (exceeds (endOffset edit) lastStart) eqn:Hskip.
  - apply applied_skip; [by apply exceeds_overlaps|apply IH].
  - apply applied_splice.
    + rewrite <-exceeds_overlaps. congruence.
    + rewrite <-splice_eq. apply IH.
Qed.

(** The policy determines the final text. *)
Lemma applied_in_order_functional lastStart output edits final final' :
  applied_in_order lastStart output edits final →
  applied_in_order lastStart output edits final' → final = final'.
Proof.
  induction 1; inversion 1; subst; auto; tauto.
Qed.

Lemma apply_loop_surviving edits output lastStart :
  (foldl apply_step (output, lastStart) edits).1 =
  foldl splice output (surviving lastStart edits).
Proof.
  revert output lastStart.
  induction edits as [|edit rest IH]; intros output lastStart; simpl; [done|].
  destruct (exceeds (endOffset edit) lastStart); simpl; apply IH.
Qed.

Lemma applyTextEdits_unfold text edits :
  applyTextEdits text edits =
  (foldl apply_step (text, PosInfinity) (array_sort by_descending_start edits)).1.
Proof.
  unfold applyTextEdits. case_bool_decide as Hlen; [|done].
  by destruct edits.
Qed.

(** C2. For every text and every list of edits, [applyTextEdits] takes the
    edits sorted by descending [startOffset] (a rearrangement of the input)
    and follows the overlap policy from [lastAppliedStart = +Infinity]: an
    edit whose [endOffset] exceeds [lastAppliedStart] is skipped, every other
    edit is spliced into its range and its [startOffset] becomes
    [lastAppliedStart]; the policy leads to no other text. For the edits
    [{0,5,A}] and [{3,8,B}], in either input order, only [{3,8,B}] survives
    and the result is the text before offset 3, then [B], then the text from
    offset 8, whatever the length of the text. *)
Theorem applyTextEdits_overlap_policy :
  (∀ text edits,
     let sorted := array_sort by_descending_start edits in
     sorted ≡ₚ edits
     ∧ StronglySorted descending_start sorted
     ∧ applied_in_order PosInfinity text sorted (applyTextEdits text edits)
     ∧ ∀ final, applied_in_order PosInfinity text sorted final ↔
                final = applyTextEdits text edits)
  ∧ (∀ text,
       surviving PosInfinity (array_sort by_descending_start [edit_A; edit_B]) = [edit_B]
       ∧ surviving PosInfinity (array_sort by_descending_start [edit_B; edit_A]) = [edit_B]
       ∧ applyTextEdits text [edit_A; edit_B]
         = JsString.take 3 text +:+ "B" +:+ JsString.drop 8 text
       ∧ applyTextEdits text [edit_B; edit_A]
         = JsString.take 3 text +:+ "B" +:+ JsString.drop 8 text
       ∧ (8 ≤ String.length text →
          String.length (applyTextEdits text [edit_A; edit_B]) = String.length text - 4))
  ∧ applyTextEdits "0123456789" [edit_A; edit_B] = "012B89".
Proof.
  split; [|split; [|reflexivity]].
  - intros text edits sorted.
    assert (applied_in_order PosInfinity text sorted (applyTextEdits text edits)) as Happ.
    { rewrite applyTextEdits_unfold. apply apply_loop_applied. }
    split; [apply array_sort_Permutation|].
    split; [apply array_sort_descending|].
    split; [done|].
    intros final. split.
    + intros Hfinal. by eapply applied_in_order_functional.
    + by intros ->.
  - intros text. split; [reflexivity|]. split; [reflexivity|].
    split; [reflexivity|]. split; [reflexivity|].
    intros Hlen.
    change (applyTextEdits text [edit_A; edit_B])
      with (JsString.take 3 text +:+ "B" +:+ JsString.drop 8 text).
    rewrite !JsStringFacts.length_app, JsStringFacts.length_take,
      JsStringFacts.length_drop.
    change (String.length "B") with 1. lia.
Qed.

Lemma applyTextEdits_overlap_policy_witness :
  applied_in_order PosInfinity "0123456789" [edit_B; edit_A] "012B89".
Proof.
  exact (proj1 (proj2 (proj2
    (proj1 applyTextEdits_overlap_policy "0123456789" [edit_A; edit_B])))).
Defined.

(** ** Non-overlapping edits *)

Lemma disjoint_ranges_sym a b : disjoint_ranges a b → disjoint_ranges b a.
Proof. unfold disjoint_ranges. intros [?|?]; auto. Qed.

Lemma pairwise_non_overlapping_Permutation l l' :
  l ≡ₚ l' → pairwise_non_overlapping l → pairwise_non_overlapping l'.
Proof.
  induction 1 as [|x l l' Hperm IH|x y l|l l' l'' _ IH1 _ IH2]; simpl.
  - done.
  - intros [Hx Hl]. split; [by rewrite <-Hperm|auto].
  - intros [Hy [Hx Hl]]. inversion Hy as [|? ? Hyx Hyl]; subst.
    repeat split; [constructor; [by apply disjoint_ranges_sym|done]|done|done].
  - auto.
Qed.

Lemma sorted_non_overlapping_separated l :
  Forall valid_edit l → pairwise_non_overlapping l →
  StronglySorted descending_start l → StronglySorted ends_before l.
Proof.
  induction l as [|x l IH]; intros Hvalid Hpw Hsorted; [constructor|].
  inversion Hvalid as [|? ? Hx Hl]; subst.
  destruct Hpw as [Hdisj Hpw].
  inversion Hsorted as [|? ? Hsl Hhd]; subst.
  constructor; [auto|].
  rewrite Forall_forall in Hdisj, Hhd. apply Forall_forall. intros y Hy.
  specialize (Hdisj y Hy). specialize (Hhd y Hy).
  unfold ends_before, disjoint_ranges, descending_start, valid_edit in *. lia.
Qed.

Lemma separated_start_inj l x y :
  Forall valid_edit l → StronglySorted ends_before l →
  x ∈ l → y ∈ l → startOffset x = startOffset y → x = y.
Proof.
  induction l as [|z l IH]; intros Hvalid Hsorted Hx Hy Heq.
  { by apply elem_of_nil in Hx. }
  inversion Hvalid as [|? ? Hz Hl]; subst.
  inversion Hsorted as [|? ? Hsl Hhd]; subst.
  rewrite Forall_forall in Hhd, Hl.
  apply elem_of_cons in Hx as [->|Hx]; apply elem_of_cons in Hy as [->|Hy]; auto.
  - specialize (Hhd y Hy). specialize (Hl y Hy).
    unfold ends_before, valid_edit in *. lia.
  - specialize (Hhd x Hx). specialize (Hl x Hx).
    unfold ends_before, valid_edit in *. lia.
  - apply IH; auto. by apply Forall_forall.
Qed.

(** Nothing is skipped in a separated list. *)
Lemma surviving_separated l lastStart :
  StronglySorted ends_before l →
  Forall (λ edit, exceeds (endOffset edit) lastStart = false) l →
  surviving lastStart l = l.
Proof.
  intros Hsorted. revert lastStart.
  induction Hsorted as [|x l Hsl IH Hhd]; intros lastStart Hlast; simpl; [done|].
  inversion Hlast as [|? ? Hx Hl]; subst. rewrite Hx. f_equal.
  apply IH. eapply Forall_impl; [exact Hhd|].
  intros y Hy. unfold ends_before in Hy. simpl.
  apply bool_decide_eq_false. lia.
Qed.

Lemma array_sort_separated edits :
  Forall valid_edit edits → pairwise_non_overlapping edits →
  StronglySorted ends_before (array_sort by_descending_start edits).
Proof.
  intros Hvalid Hpw. apply sorted_non_overlapping_separated.
  - by rewrite array_sort_Permutation.
  - eapply pairwise_non_overlapping_Permutation; [|exact Hpw].
    symmetry. apply array_sort_Permutation.
  - apply array_sort_descending.
Qed.

Lemma array_sort_order_independent edits edits' :
  Forall valid_edit edits → pairwise_non_overlapping edits → edits' ≡ₚ edits →
  array_sort by_descending_start edits' = array_sort by_descending_start edits.
Proof.
  intros Hvalid Hpw Hperm.
  assert (Forall valid_edit edits') as Hvalid' by (by rewrite Hperm).
  assert (pairwise_non_overlapping edits') as Hpw'.
  { eapply pairwise_non_overlapping_Permutation; [symmetry; exact Hperm|done]. }
  apply (StronglySorted_unique_strong descending_start).
  - intros x1 x2 Hx1 Hx2 H12 H21.
    apply (separated_start_inj (array_sort by_descending_start edits')).
    + by rewrite array_sort_Permutation.
    + by apply array_sort_separated.
    + done.
    + rewrite array_sort_Permutation, Hperm, <-(array_sort_Permutation by_descending_start edits).
      done.
    + unfold descending_start in *. lia.
  - apply array_sort_descending.
  - apply array_sort_descending.
  - by rewrite !array_sort_Permutation.
Qed.

Lemma replace_between_snoc text cursor limit ascending edit :
  replace_between text cursor limit (ascending ++ [edit]) =
  replace_between text cursor (startOffset edit) ascending
    +:+ replacement edit +:+ JsString.slice text (endOffset edit) limit.
Proof.
  revert cursor. induction ascending as [|e asc IH]; intros cursor; simpl; [done|].
  by rewrite IH, !JsStringFacts.app_assoc.
Qed.

(** Splicing from the highest offset down, each edit meets the original
    text at its offsets. *)
Lemma splice_loop text edits limit suffix :
  limit ≤ String.length text →
  StronglySorted ends_before edits → Forall valid_edit edits →
  Forall (λ edit, endOffset edit ≤ limit) edits →
  foldl splice (JsString.take limit text +:+ suffix) edits =
  replace_between text 0 limit (reverse edits) +:+ suffix.
Proof.
  intros Hlimit Hsorted. revert limit suffix Hlimit.
  induction Hsorted as [|e rest Hrest IH Hhd]; intros limit suffix Hlimit Hvalid Hends.
  { simpl. by rewrite JsStringFacts.slice_0. }
  inversion Hvalid as [|? ? He Hvrest]; subst.
  inversion Hends as [|? ? Hend Herest]; subst.
  unfold valid_edit in He. simpl. rewrite splice_eq.
  rewrite JsStringFacts.take_app_le
    by (rewrite JsStringFacts.length_take; lia).
  rewrite JsStringFacts.take_take by lia.
  rewrite JsStringFacts.drop_app_le
    by (rewrite JsStringFacts.length_take; lia).
  rewrite JsStringFacts.drop_take.
  rewrite IH; [|lia|done|done].
  rewrite reverse_cons, replace_between_snoc.
  by rewrite !JsStringFacts.app_assoc.
Qed.

(** C3. For every list of valid ([startOffset < endOffset]), pairwise
    non-overlapping edits and every rearrangement of it given as input,
    [applyTextEdits] skips no edit: it splices every edit of the list, from
    the highest [startOffset] down, and its result is the result for the list
    in its first order. When the edits lie within the text, the result is the
    original text with the range of every edit replaced by its replacement.
    On [a[16px]b[8px]c], replacing [[16px]] by [X] and [[8px]] by [Y] gives
    [aXbYc] in both orders. *)
Theorem applyTextEdits_order_independent text edits edits' :
  Forall valid_edit edits → pairwise_non_overlapping edits → edits' ≡ₚ edits →
  let sorted := array_sort by_descending_start edits' in
  surviving PosInfinity sorted = sorted
  ∧ sorted ≡ₚ edits
  ∧ applyTextEdits text edits' = foldl splice text sorted
  ∧ applyTextEdits text edits' = applyTextEdits text edits
  ∧ (Forall (λ edit, endOffset edit ≤ String.length text) edits →
     applyTextEdits text edits' = replace_ranges text (reverse sorted))
  ∧ applyTextEdits "a[16px]b[8px]c" [edit_X; edit_Y] = "aXbYc"
  ∧ applyTextEdits "a[16px]b[8px]c" [edit_Y; edit_X] = "aXbYc".
Proof.
  intros Hvalid Hpw Hperm sorted.
  assert (sorted = array_sort by_descending_start edits) as Hsame
    by (by apply array_sort_order_independent).
  assert (StronglySorted ends_before sorted) as Hsep
    by (rewrite Hsame; by apply array_sort_separated).
  assert (sorted ≡ₚ edits) as Hsorted by (by rewrite Hsame, array_sort_Permutation).
  assert (surviving PosInfinity sorted = sorted) as Hall.
  { apply surviving_separated; [done|]. by apply Forall_forall. }
  assert (applyTextEdits text edits' = foldl splice text sorted) as Hsplice.
  { rewrite applyTextEdits_unfold, apply_loop_surviving. by fold sorted; rewrite Hall. }
  split; [done|]. split; [done|]. split; [done|].
  split; [|split; [|split; reflexivity]].
  - rewrite !applyTextEdits_unfold. by fold sorted; rewrite Hsame.
  - intros Hbounds. rewrite Hsplice. unfold replace_ranges.
    rewrite <-(JsStringFacts.app_empty_r (replace_between _ _ _ _)).
    rewrite <-splice_loop; [|done|done|by rewrite Hsorted|by rewrite Hsorted].
    by rewrite JsStringFacts.take_ge, JsStringFacts.app_empty_r.
Qed.

Lemma applyTextEdits_order_independent_witness :
  applyTextEdits "a[16px]b[8px]c" [edit_Y; edit_X] =
  applyTextEdits "a[16px]b[8px]c" [edit_X; edit_Y].
Proof.
  refine (proj1 (proj2 (proj2 (proj2
    (applyTextEdits_order_independent "a[16px]b[8px]c" [edit_X; edit_Y] [edit_Y; edit_X]
       _ _ _))))).
  - repeat (constructor; [unfold valid_edit; simpl; lia|]). constructor.
  - simpl. split; [|done]. constructor; [|constructor].
    unfold disjoint_ranges. simpl. lia.
  - apply Permutation_swap.
Defined.

(** ** Keys of the deduplication *)

Lemma pretty_N_char_no_colon x : pretty_N_char x ≠ ":"%char.
Proof. unfold pretty_N_char. by repeat case_match. Qed.

Lemma pretty_N_go_no_colon x s : no_colon s → no_colon (pretty_N_go x s).
Proof.
  revert s. induction (N.lt_wf_0 x) as [x _ IH]; intros s Hs.
  destruct (decide (x = 0)%N) as [->|Hx].
  { by rewrite pretty_N_go_0. }
  rewrite pretty_N_go_step by lia.
  apply IH; [apply N.div_lt; lia|].
  split; [apply pretty_N_char_no_colon|done].
Qed.

Lemma pretty_nat_no_colon (n : nat) : no_colon (pretty n).
Proof.
  unfold pretty, pretty_nat, pretty, pretty_N.
  case_decide; [by repeat split|]. by apply pretty_N_go_no_colon.
Qed.

Lemma colon_separated_inj a a' b b' :
  no_colon a → no_colon a' →
  a +:+ ":" +:+ b = a' +:+ ":" +:+ b' → a = a' ∧ b = b'.
Proof.
  revert a'. induction a as [|c a IH]; intros [|c' a']; simpl; intros Ha Ha' Heq.
  - by injection Heq.
  - injection Heq as Hc _. destruct Ha' as [Hc' _]. by subst.
  - injection Heq as Hc _. destruct Ha as [Hc' _]. by subst.
  - injection Heq as -> Heq. destruct Ha, Ha'.
    destruct (IH a') as [-> ->]; auto.
Qed.

Lemma edit_key_same_range a b : edit_key a = edit_key b ↔ same_range a b.
Proof.
  unfold edit_key, same_range. split.
  - intros Heq.
    apply colon_separated_inj in Heq as [Hs He]; auto using pretty_nat_no_colon.
    split; by apply (inj pretty).
  - by intros [-> ->].
Qed.

(** ** Deduplication *)

Lemma dedupe_loop edits seen result earlier :
  (∀ key, key ∈ seen ↔ ∃ e, e ∈ earlier ∧ edit_key e = key) →
  (foldl dedupe_step (seen, result) edits).2 =
  result ++ first_of_each_range earlier edits.
Proof.
  revert seen result earlier.
  induction edits as [|edit rest IH]; intros seen result earlier Hseen; simpl.
  { by rewrite app_nil_r. }
  assert (∀ key, key ∈ ({[edit_key edit]} ∪ seen : gset string) ↔
                 ∃ e, e ∈ earlier ++ [edit] ∧ edit_key e = key) as Hseen'.
  { intros key. rewrite elem_of_union, elem_of_singleton, Hseen. split.
    - intros [->|(e & He & Hk)].
      + exists edit. split; [|done]. apply elem_of_app. right. by left.
      + exists e. split; [|done]. apply elem_of_app. by left.
    - intros (e & He & Hk). apply elem_of_app in He as [He|He].
      + right. by exists e.
      + left. apply list_elem_of_singleton in He. by subst. }
  assert (edit_key edit ∈ seen ↔ Exists (same_range edit) earlier) as Hdup.
  { rewrite Hseen, Exists_exists. split.
    - intros (e & He & Hk). exists e. split; [done|].
      by apply edit_key_same_range.
    - intros (e & He & Hr). exists e. split; [done|].
      symmetry. by apply edit_key_same_range. }
  case_bool_decide as Hin; case_bool_decide as Hex; try tauto.
  - apply IH. intros key. rewrite <-Hseen', elem_of_union, elem_of_singleton.
    split; [by right|]. by intros [->|?].
  - by rewrite (IH _ _ (earlier ++ [edit]) Hseen'), <-app_assoc.
Qed.

Lemma dedupeEdits_spec edits : dedupeEdits edits = first_of_each_range [] edits.
Proof.
  unfold dedupeEdits. rewrite (dedupe_loop edits ∅ [] []); [done|].
  intros key. split; [by intros ?%elem_of_empty|].
  intros (e & He & _). by apply elem_of_nil in He.
Qed.

Lemma first_of_each_range_sublist earlier edits :
  first_of_each_range earlier edits `sublist_of` edits.
Proof.
  revert earlier. induction edits as [|edit rest IH]; intros earlier; simpl; [done|].
  case_bool_decide; [apply sublist_cons|apply sublist_skip]; apply IH.
Qed.

(** An edit of the input is kept exactly when no edit before it has its
    range. *)
Lemma first_of_each_range_lookup earlier edits e :
  e ∈ first_of_each_range earlier edits ↔
  ∃ i, edits !! i = Some e
       ∧ ¬ Exists (same_range e) (earlier ++ take i edits).
Proof.
  revert earlier. induction edits as [|edit rest IH]; intros earlier; simpl.
  { split; [by intros ?%elem_of_nil|]. by intros (i & Hi & _). }
  assert (∀ i, (earlier ++ [edit]) ++ take i rest = earlier ++ take (S i) (edit :: rest))
    as Hshift by (intros i; by rewrite <-app_assoc).
  case_bool_decide as Hex.
  - rewrite IH. split.
    + intros (i & Hi & Hno). exists (S i). split; [done|]. by rewrite <-Hshift.
    + intros ([|i] & Hi & Hno).
      * simpl in Hi, Hno. simplify_eq. by rewrite app_nil_r in Hno.
      * exists i. split; [done|]. by rewrite Hshift.
  - rewrite elem_of_cons, IH. split.
    + intros [->|(i & Hi & Hno)].
      * exists 0. split; [done|]. simpl. by rewrite app_nil_r.
      * exists (S i). split; [done|]. by rewrite <-Hshift.
    + intros ([|i] & Hi & Hno).
      * simpl in Hi. simplify_eq. by left.
      * right. exists i. split; [done|]. by rewrite Hshift.
Qed.

(** C5. For every list of edits, [dedupeEdits] returns the first edit of
    each [(startOffset, endOffset)] pair: an edit of the input is dropped
    when an earlier edit of the input has its pair, and kept, in the input's
    order, otherwise. Two edits with one range and different suggestions
    collapse to the first. *)
Theorem dedupeEdits_first_occurrence :
  (∀ edits,
     dedupeEdits edits = first_of_each_range [] edits
     ∧ dedupeEdits edits `sublist_of` edits
     ∧ ∀ e, e ∈ dedupeEdits edits ↔
            ∃ i, edits !! i = Some e ∧ ¬ Exists (same_range e) (take i edits))
  ∧ (∀ s e r1 r2 o1 o2,
       dedupeEdits [mkTextEdit s e r1 o1; mkTextEdit s e r2 o2] = [mkTextEdit s e r1 o1]).
Proof.
  split.
  - intros edits. rewrite dedupeEdits_spec.
    split; [done|]. split; [apply first_of_each_range_sublist|].
    intros e. by rewrite first_of_each_range_lookup.
  - intros s e r1 r2 o1 o2. rewrite dedupeEdits_spec.
    set (e1 := mkTextEdit s e r1 o1). set (e2 := mkTextEdit s e r2 o2). simpl.
    rewrite (bool_decide_eq_true_2 (Exists (same_range e2) [e1])); [done|].
    apply Exists_cons_hd. by split.
Qed.

Lemma dedupeEdits_first_occurrence_witness :
  dedupeEdits [mkTextEdit 0 9 "mt-4" "mt-[16px]"; mkTextEdit 0 9 "mt-[1rem]" "mt-[16px]"]
  = [mkTextEdit 0 9 "mt-4" "mt-[16px]"].
Proof.
  exact (proj2 dedupeEdits_first_occurrence 0 9 "mt-4" "mt-[1rem]" "mt-[16px]" "mt-[16px]").
Defined.


(** ** The translator *)

Section TranslatorFacts.
Context {service : LanguageService}.

Lemma translate_Some document d e :
  translate document d = Some e ↔ ∃ s, translatable document d s ∧ e = edit_for document d s.
Proof.
  unfold translate, translatable. destruct (primary_suggestion d) as [s|].
  - case_bool_decide as Hg; split.
    + intros [= <-]. exists s. by destruct Hg as (? & ? & ?).
    + intros (s' & (? & [= <-] & ? & ?) & ->). done.
    + done.
    + intros (s' & (? & [= <-] & ? & ?) & _). by destruct Hg.
  - split; [done|]. by intros (s & (_ & ? & _) & _).
Qed.

Lemma translate_None document d :
  isSuggestCanonicalClasses d = false ∨ primary_suggestion d = None
  ∨ primary_suggestion d = Some "" ∨ end_of document d ≤ start_of document d →
  translate document d = None.
Proof.
  intros Hd. destruct (translate document d) as [e|] eqn:He; [|done].
  apply translate_Some in He as (s & (Hkind & Hs & Hne & Hlt) & _).
  destruct Hd as [Hd|[Hd|[Hd|Hd]]]; [congruence|congruence|congruence|lia].
Qed.

(** An iteration of the loop of [buildCanonicalEdits] pushes the edit of a
    translatable diagnostic and nothing else. *)
Lemma build_step_translate document edits d :
  build_step document edits d = edits ++ option_list (translate document d).
Proof.
  unfold build_step, translate, primary_suggestion, edit_for, start_of, end_of.
  destruct (suggestions d) as [[|s l]|]; simpl;
    [by destruct (isSuggestCanonicalClasses d); rewrite app_nil_r| |
     by destruct (isSuggestCanonicalClasses d); rewrite app_nil_r].
  destruct (isSuggestCanonicalClasses d); simpl.
  - case_bool_decide as Hs.
    { rewrite bool_decide_eq_false_2 by (intros (_ & ? & _); done).
      by rewrite app_nil_r. }
    case_bool_decide as Hle.
    { rewrite bool_decide_eq_false_2 by (intros (_ & _ & ?); lia).
      by rewrite app_nil_r. }
    rewrite getText_substring by lia.
    rewrite bool_decide_eq_true_2; [done|].
    split; [done|]. split; [done|lia].
  - by rewrite app_nil_r.
Qed.

Lemma build_loop document edits diagnostics :
  foldl (build_step document) edits diagnostics =
  edits ++ omap (translate document) diagnostics.
Proof.
  revert edits. induction diagnostics as [|d ds IH]; intros edits; simpl.
  { by rewrite app_nil_r. }
  rewrite IH, build_step_translate.
  destruct (translate document d); simpl; by rewrite <-?app_assoc, ?app_nil_r.
Qed.

Lemma buildCanonicalEdits_eq state document diagnostics :
  doValidate state document = Returned diagnostics →
  buildCanonicalEdits state document =
  Returned (dedupeEdits (omap (translate document) diagnostics)).
Proof.
  intros Hd. unfold buildCanonicalEdits. rewrite Hd. simpl.
  by rewrite build_loop.
Qed.

End TranslatorFacts.

Lemma dedupeEdits_elem_of e edits : e ∈ dedupeEdits edits → e ∈ edits.
Proof.
  rewrite dedupeEdits_spec. intros He.
  eapply elem_of_sublist; [exact He|apply first_of_each_range_sublist].
Qed.

(** Every range of the input keeps an edit. *)
Lemma dedupeEdits_covers e edits :
  e ∈ edits → ∃ e', e' ∈ dedupeEdits edits ∧ same_range e' e.
Proof.
  rewrite dedupeEdits_spec.
  assert (∀ earlier, e ∈ edits →
            Exists (same_range e) earlier
            ∨ ∃ e', e' ∈ first_of_each_range earlier edits ∧ same_range e' e) as Hgen.
  { induction edits as [|x rest IH]; intros earlier He; simpl.
    { by apply elem_of_nil in He. }
    apply elem_of_cons in He as [->|He].
    - case_bool_decide as Hex; [by left|].
      right. exists x. split; [by left|done].
    - destruct (IH (earlier ++ [x]) He) as [Hex|(e' & He' & Hr)].
      + apply Exists_app in Hex as [Hex|Hex]; [by left|].
        apply Exists_cons in Hex as [Hex|Hex]; [|by apply Exists_nil in Hex].
        case_bool_decide as Hx.
        * left. apply Exists_exists in Hx as (y & Hy & Hxy).
          apply Exists_exists. exists y. split; [done|].
          destruct Hex, Hxy. split; congruence.
        * right. exists x. split; [by left|]. destruct Hex. by split.
      + right. exists e'. split; [|done].
        case_bool_decide; [done|by right]. }
  intros He. destruct (Hgen [] He) as [Hex|?]; [|done].
  by apply Exists_nil in Hex.
Qed.

(** As the claim on the translator is worded, every diagnostic that carries
    a suggestion and has a proper range would have an edit with its primary
    suggestion in the result. A diagnostic whose primary suggestion is the
    empty string has none, and the second report of a range has none. *)
Lemma buildCanonicalEdits_skips_some_suggestions :
  (doValidate (LanguageService := Fixtures.scripted_service Fixtures.empty_suggestion_analyzer)
      () (mkTextDocument "file:///app/a.html" "html" 1 "mt-[16px]")
    = Returned [Fixtures.suggest 0 9 [""]]
   ∧ suggestions (Fixtures.suggest 0 9 [""]) = Some [""]
   ∧ start_of (service := Fixtures.scripted_service Fixtures.empty_suggestion_analyzer)
       (mkTextDocument "file:///app/a.html" "html" 1 "mt-[16px]")
       (Fixtures.suggest 0 9 [""]) = 0
   ∧ end_of (service := Fixtures.scripted_service Fixtures.empty_suggestion_analyzer)
       (mkTextDocument "file:///app/a.html" "html" 1 "mt-[16px]")
       (Fixtures.suggest 0 9 [""]) = 9
   ∧ buildCanonicalEdits
       (service := Fixtures.scripted_service Fixtures.empty_suggestion_analyzer)
       () (mkTextDocument "file:///app/a.html" "html" 1 "mt-[16px]")
     = Returned [])
  ∧ (doValidate (LanguageService := Fixtures.scripted_service Fixtures.repeating_analyzer)
       () (mkTextDocument "file:///app/a.html" "html" 1 "mt-[16px]")
     = Returned [Fixtures.suggest 0 9 ["mt-4"]; Fixtures.suggest 0 9 ["mt-[1rem]"]]
     ∧ primary_suggestion (Fixtures.suggest 0 9 ["mt-[1rem]"]) = Some "mt-[1rem]"
     ∧ start_of (service := Fixtures.scripted_service Fixtures.repeating_analyzer)
         (mkTextDocument "file:///app/a.html" "html" 1 "mt-[16px]")
         (Fixtures.suggest 0 9 ["mt-[1rem]"]) = 0
     ∧ end_of (service := Fixtures.scripted_service Fixtures.repeating_analyzer)
         (mkTextDocument "file:///app/a.html" "html" 1 "mt-[16px]")
         (Fixtures.suggest 0 9 ["mt-[1rem]"]) = 9
     ∧ buildCanonicalEdits (service := Fixtures.scripted_service Fixtures.repeating_analyzer)
         () (mkTextDocument "file:///app/a.html" "html" 1 "mt-[16px]")
       = Returned [mkTextEdit 0 9 "mt-4" "mt-[16px]"]
     ∧ ¬ (∀ d s,
            d ∈ [Fixtures.suggest 0 9 ["mt-4"]; Fixtures.suggest 0 9 ["mt-[1rem]"]] →
            primary_suggestion d = Some s →
            ∃ e, e ∈ [mkTextEdit 0 9 "mt-4" "mt-[16px]"] ∧ replacement e = s)).
Proof.
  split; [by repeat split|].
  repeat split; try reflexivity.
  intros Hall.
  destruct (Hall (Fixtures.suggest 0 9 ["mt-[1rem]"]) "mt-[1rem]") as (e & He & Hr).
  - right. left.
  - reflexivity.
  - apply list_elem_of_singleton in He. subst e. discriminate Hr.
Qed.

(** C6, as amended. When the analyzer returns its diagnostics,
    [buildCanonicalEdits] returns edits that all satisfy
    [startOffset < endOffset]. A diagnostic that is no canonical-class
    diagnostic, that has no primary suggestion or an empty one, or that has
    [start >= end], adds nothing to the edit list and raises no error. A
    canonical-class diagnostic with a non-empty primary suggestion and
    [start < end] adds the edit of its range, its primary suggestion and the
    text of its range. The result is the deduplication of the edits so
    added: every returned edit is the edit of such a diagnostic, and the
    range of every such diagnostic has an edit in the result, which is the
    edit of a diagnostic with that range. *)
Theorem buildCanonicalEdits_translates {service : LanguageService} state document diagnostics :
  doValidate state document = Returned diagnostics →
  ∃ edits,
    buildCanonicalEdits state document = Returned edits
    ∧ Forall valid_edit edits
    ∧ (∀ acc d,
         isSuggestCanonicalClasses d = false ∨ primary_suggestion d = None
         ∨ primary_suggestion d = Some "" ∨ end_of document d ≤ start_of document d →
         build_step document acc d = acc)
    ∧ (∀ acc d s, translatable document d s →
                  build_step document acc d = acc ++ [edit_for document d s]
                  ∧ original (edit_for document d s) = getText document (range d))
    ∧ edits = dedupeEdits (omap (translate document) diagnostics)
    ∧ (∀ e, e ∈ edits →
            ∃ d s, d ∈ diagnostics ∧ translatable document d s ∧ e = edit_for document d s)
    ∧ (∀ d s, d ∈ diagnostics → translatable document d s →
              ∃ d' s', d' ∈ diagnostics ∧ translatable document d' s'
                       ∧ edit_for document d' s' ∈ edits
                       ∧ same_range (edit_for document d' s') (edit_for document d s)
                       ∧ original (edit_for document d' s') = original (edit_for document d s)).
Proof.
  intros Hd. eexists. split; [by apply buildCanonicalEdits_eq|].
  set (edits := dedupeEdits (omap (translate document) diagnostics)).
  assert (∀ e, e ∈ edits →
            ∃ d s, d ∈ diagnostics ∧ translatable document d s ∧ e = edit_for document d s)
    as Hfrom.
  { intros e He%dedupeEdits_elem_of.
    apply list_elem_of_omap in He as (d & Hin & Ht).
    apply translate_Some in Ht as (s & Hs & ->). by exists d, s. }
  split; [|split; [|split; [|split; [done|split; [done|]]]]].
  - apply Forall_forall. intros e He.
    destruct (Hfrom e He) as (d & s & _ & (_ & _ & _ & Hlt) & ->). exact Hlt.
  - intros acc d Hskip.
    by rewrite build_step_translate, translate_None, app_nil_r.
  - intros acc d s Ht. split.
    + rewrite build_step_translate.
      by rewrite (proj2 (translate_Some document d _) (ex_intro _ s (conj Ht eq_refl))).
    + simpl. rewrite getText_substring; [done|].
      destruct Ht as (_ & _ & _ & Hlt). unfold start_of, end_of in Hlt. lia.
  - intros d s Hin Ht.
    assert (edit_for document d s ∈ omap (translate document) diagnostics) as Hraw.
    { apply list_elem_of_omap. exists d. split; [done|].
      apply translate_Some. by exists s. }
    apply dedupeEdits_covers in Hraw as (e' & He' & Hr).
    destruct (Hfrom e' He') as (d' & s' & Hin' & Ht' & ->).
    exists d', s'. split; [done|]. split; [done|]. split; [done|]. split; [done|].
    destruct Hr as [Hs He]. unfold edit_for in *. simpl in *. by rewrite Hs, He.
Qed.

Lemma buildCanonicalEdits_translates_witness :
  ∃ edits,
    buildCanonicalEdits (service := Fixtures.scripted_service Fixtures.repeating_analyzer)
      () (mkTextDocument "file:///app/a.html" "html" 1 "mt-[16px]") = Returned edits
    ∧ Forall valid_edit edits.
Proof.
  destruct (buildCanonicalEdits_translates
              (service := Fixtures.scripted_service Fixtures.repeating_analyzer)
              () (mkTextDocument "file:///app/a.html" "html" 1 "mt-[16px]")
              [Fixtures.suggest 0 9 ["mt-4"]; Fixtures.suggest 0 9 ["mt-[1rem]"]]
              eq_refl) as (edits & Hb & Hv & _).
  exists edits. split; [exact Hb|exact Hv].
Defined.

(** ** The pipeline *)


Lemma pairwise_non_overlapping_sublist l l' :
  l' `sublist_of` l → pairwise_non_overlapping l → pairwise_non_overlapping l'.
Proof.
  induction 1 as [|x l1 l2 Hsub IH|x l1 l2 Hsub IH]; simpl; [done| |].
  - intros [Hx Hrest]. split; [|by apply IH].
    apply Forall_forall. intros y Hy. rewrite Forall_forall in Hx.
    apply Hx. by eapply elem_of_sublist.
  - intros [_ Hrest]. by apply IH.
Qed.

(** Diagnostics with pairwise disjoint ranges are translated into pairwise
    non-overlapping edits. *)
Lemma non_overlapping_diagnostics_edits {service : LanguageService}
    document diagnostics :
  non_overlapping_diagnostics document diagnostics →
  pairwise_non_overlapping (dedupeEdits (omap (translate document) diagnostics)).
Proof.
  intros Hd.
  apply (pairwise_non_overlapping_sublist (omap (translate document) diagnostics)).
  { rewrite dedupeEdits_spec. apply first_of_each_range_sublist. }
  induction diagnostics as [|d rest IH]; [done|].
  destruct Hd as [Hd Hrest]. simpl.
  destruct (translate document d) as [e|] eqn:He; [|by apply IH].
  split; [|by apply IH].
  apply translate_Some in He as (s & _ & ->).
  apply Forall_forall. intros e' (d' & Hd' & He')%list_elem_of_omap.
  apply translate_Some in He' as (s' & _ & ->).
  rewrite Forall_forall in Hd. unfold disjoint_ranges. simpl. by apply Hd.
Qed.



Section PipelineFacts.
Context {host : Host} {service : LanguageService}.


(** C4. With an empty list of edits [applyTextEdits] returns its text.
    [canonicalizeDocument] returns the text it was given when the analyzer
    returns no diagnostic for the document, and whenever no edit is built. *)
Theorem canonicalizeDocument_no_diagnostics :
  (∀ text, applyTextEdits text [] = text)
  ∧ (∀ text filePath designSystem rootDir rootFontSize,
       (∀ languageId,
          inferLanguageId filePath = Some languageId →
          doValidate
            (createLanguageServiceState designSystem rootDir
               (createSettings (default DEFAULT_ROOT_FONT_SIZE rootFontSize)))
            (createTextDocument filePath languageId text) = Returned []) →
       canonicalizeDocument text filePath designSystem rootDir rootFontSize
       = Returned text)
  ∧ (∀ text filePath designSystem rootDir rootFontSize,
       (∀ languageId,
          inferLanguageId filePath = Some languageId →
          buildCanonicalEdits
            (createLanguageServiceState designSystem rootDir
               (createSettings (default DEFAULT_ROOT_FONT_SIZE rootFontSize)))
            (createTextDocument filePath languageId text) = Returned []) →
       canonicalizeDocument text filePath designSystem rootDir rootFontSize
       = Returned text).
Proof.
  assert (∀ text filePath designSystem rootDir rootFontSize,
       (∀ languageId,
          inferLanguageId filePath = Some languageId →
          buildCanonicalEdits
            (createLanguageServiceState designSystem rootDir
               (createSettings (default DEFAULT_ROOT_FONT_SIZE rootFontSize)))
            (createTextDocument filePath languageId text) = Returned []) →
       canonicalizeDocument text filePath designSystem rootDir rootFontSize
       = Returned text) as Hnone.
  { intros text filePath designSystem rootDir rootFontSize Hb.
    unfold canonicalizeDocument.
    destruct (inferLanguageId filePath) as [languageId|]; [|done].
    by rewrite (Hb languageId eq_refl). }
  split; [done|]. split; [|done].
  intros text filePath designSystem rootDir rootFontSize Hd.
  apply Hnone. intros languageId Hl.
  by rewrite (buildCanonicalEdits_eq _ _ [] (Hd languageId Hl)).
Qed.

End PipelineFacts.

Lemma canonicalizeDocument_no_diagnostics_witness :
  canonicalizeDocument (host := Fixtures.posix_host)
    (service := Fixtures.scripted_service Fixtures.silent_analyzer)
    "<div class=mt-4>" "/app/page.html" Fixtures.a_design_system "/app" None
  = Returned "<div class=mt-4>".
Proof.
  apply (proj1 (proj2 (canonicalizeDocument_no_diagnostics
                         (host := Fixtures.posix_host)
                         (service := Fixtures.scripted_service Fixtures.silent_analyzer)))).
  intros languageId _. reflexivity.
Defined.

(** The end-to-end scenario: both classes are replaced in one pass, and a
    second pass changes nothing. *)
Example canonicalizeDocument_end_to_end :
  canonicalizeDocument (host := Fixtures.posix_host)
    (service := Fixtures.scripted_service Fixtures.scale_analyzer)
    "mt-[16px] p-[8px]" "/app/page.html" Fixtures.a_design_system "/app" None
  = Returned "mt-4 p-2"
  ∧ canonicalizeDocument (host := Fixtures.posix_host)
      (service := Fixtures.scripted_service Fixtures.scale_analyzer)
      "mt-4 p-2" "/app/page.html" Fixtures.a_design_system "/app" None
    = Returned "mt-4 p-2".
Proof. split; reflexivity. Qed.



(** ** The format dispatcher *)

Lemma language_of_extension_supported ext :
  is_Some (language_of_extension ext) ↔ ext ∈ SUPPORTED_EXTENSIONS.
Proof.
  unfold SUPPORTED_EXTENSIONS. rewrite elem_of_list_to_set. split.
  - unfold language_of_extension. intros Hsome.
    repeat case_bool_decide; try (by destruct Hsome);
      repeat match goal with
        | H : ext ∈ _ :: _ |- _ => apply elem_of_cons in H as [->|H]
        | H : ext ∈ [] |- _ => by apply elem_of_nil in H
        | H : ext = _ |- _ => subst ext
        end;
      by apply (bool_decide_unpack _).
  - intros Hin.
    repeat (apply elem_of_cons in Hin as [->|Hin]; [by eexists|]).
    by apply elem_of_nil in Hin.
Qed.

(** C10. For every host and every file path, [isSupportedExtension] holds
    exactly when [inferLanguageId] returns a language id: the set of the
    glob filter and the labels of the dispatcher's [switch] are the same
    extensions, and both look up the lower-cased extension of the path. *)
Theorem isSupportedExtension_iff_inferLanguageId {host : Host} filePath :
  (isSupportedExtension filePath = true ↔ is_Some (inferLanguageId filePath))
  ∧ (isSupportedExtension filePath = false ↔ inferLanguageId filePath = None).
Proof.
  unfold isSupportedExtension, inferLanguageId.
  pose proof (language_of_extension_supported (toLowerCase (extname filePath))) as Hiff.
  split.
  - by rewrite bool_decide_eq_true, Hiff.
  - rewrite bool_decide_eq_false, <-Hiff, eq_None_not_Some. done.
Qed.

Lemma isSupportedExtension_iff_inferLanguageId_witness :
  isSupportedExtension (host := Fixtures.posix_host) "/app/Page.TSX" = true
  ∧ inferLanguageId (host := Fixtures.posix_host) "/app/Page.TSX" = Some "typescriptreact"
  ∧ inferLanguageId (host := Fixtures.posix_host) "/app/logo.png" = None.
Proof.
  split; [|split; [reflexivity|]].
  - apply (proj1 (isSupportedExtension_iff_inferLanguageId
                    (host := Fixtures.posix_host) "/app/Page.TSX")).
    by eexists.
  - apply (proj2 (isSupportedExtension_iff_inferLanguageId
                    (host := Fixtures.posix_host) "/app/logo.png")).
    reflexivity.
Defined.

(** ** The design-system cache *)

Section DesignSystemCacheFacts.
Context {host : Host}.

Lemma getDesignSystem_hit st rootDir cssPath promise :
  designSystemCache st !! cache_key rootDir cssPath = Some promise →
  getDesignSystem st rootDir cssPath = (promise, st).
Proof.
  intros Hhit. unfold getDesignSystem.
  rewrite bool_decide_eq_true_2 by (by rewrite Hhit). by rewrite Hhit.
Qed.

Lemma getDesignSystem_miss st rootDir cssPath :
  designSystemCache st !! cache_key rootDir cssPath = None →
  getDesignSystem st rootDir cssPath =
  (length (loadsStarted st),
   mkLoaderState
     (<[cache_key rootDir cssPath := length (loadsStarted st)]> (designSystemCache st))
     (loadsStarted st ++ [(rootDir, cssPath)]) (settledPromises st)).
Proof.
  intros Hmiss. unfold getDesignSystem.
  rewrite bool_decide_eq_false_2 by (rewrite Hmiss; by intros [? ?]).
  simpl. by rewrite lookup_insert_eq.
Qed.

Lemma loads_for_snoc cacheKey st rootDir cssPath settled cache :
  loads_for cacheKey (mkLoaderState cache (loadsStarted st ++ [(rootDir, cssPath)]) settled) =
  loads_for cacheKey st
    ++ (if decide (cache_key rootDir cssPath = cacheKey) then [(rootDir, cssPath)] else []).
Proof.
  unfold loads_for. simpl. rewrite filter_app. by f_equal.
Qed.

(** An event other than a clear keeps a cached promise and starts no load
    for its key. *)
Lemma run_event_keeps cacheKey promise st ev :
  is_clear ev = false →
  designSystemCache st !! cacheKey = Some promise →
  designSystemCache (run_event st ev) !! cacheKey = Some promise
  ∧ loads_for cacheKey (run_event st ev) = loads_for cacheKey st.
Proof.
  intros Hclear Hhit. destruct ev as [rootDir cssPath| |p]; [|done|done].
  unfold run_event.
  destruct (designSystemCache st !! cache_key rootDir cssPath) as [q|] eqn:Hother.
  - by rewrite (getDesignSystem_hit _ _ _ q).
  - rewrite getDesignSystem_miss by done. simpl.
    assert (cache_key rootDir cssPath ≠ cacheKey) as Hne by (intros <-; congruence).
    rewrite lookup_insert_ne by done. split; [done|].
    rewrite loads_for_snoc. rewrite decide_False by done. by rewrite app_nil_r.
Qed.

Lemma run_events_keep cacheKey promise events st :
  forallb (λ ev, negb (is_clear ev)) events = true →
  designSystemCache st !! cacheKey = Some promise →
  designSystemCache (foldl run_event st events) !! cacheKey = Some promise
  ∧ loads_for cacheKey (foldl run_event st events) = loads_for cacheKey st.
Proof.
  revert st. induction events as [|ev events IH]; intros st Hclear Hhit; simpl; [done|].
  simpl in Hclear. apply andb_true_iff in Hclear as [Hev Hrest].
  apply negb_true_iff in Hev.
  destruct (run_event_keeps cacheKey promise st ev Hev Hhit) as [Hhit' Hloads].
  destruct (IH (run_event st ev) Hrest Hhit') as [? Hloads'].
  split; [done|]. by rewrite Hloads', Hloads.
Qed.

(** C7. A call of [getDesignSystem] that misses the cache starts the load
    and caches its pending promise. A later call with the same cache key,
    with any calls of [getDesignSystem] and any settling of promises in
    between but no clearing of the cache, starts no load and returns the
    promise of the first call, settled or not: one load is started for the
    key, by the first call. *)
Theorem getDesignSystem_coalesces st rootDir cssPath rootDir' cssPath' between :
  designSystemCache st !! cache_key rootDir cssPath = None →
  cache_key rootDir' cssPath' = cache_key rootDir cssPath →
  forallb (λ ev, negb (is_clear ev)) between = true →
  let first := getDesignSystem st rootDir cssPath in
  let second := getDesignSystem (foldl run_event first.2 between) rootDir' cssPath' in
  second.1 = first.1
  ∧ loadsStarted first.2 !! first.1 = Some (rootDir, cssPath)
  ∧ designSystemCache first.2 !! cache_key rootDir cssPath = Some first.1
  ∧ second.2 = foldl run_event first.2 between
  ∧ loads_for (cache_key rootDir cssPath) second.2
    = loads_for (cache_key rootDir cssPath) st ++ [(rootDir, cssPath)].
Proof.
  intros Hmiss Hkey Hclear. cbv zeta.
  rewrite (getDesignSystem_miss st) by done. cbn [fst snd].
  set (st1 := mkLoaderState _ _ _).
  assert (designSystemCache st1 !! cache_key rootDir cssPath
          = Some (length (loadsStarted st))) as Hhit by apply lookup_insert_eq.
  destruct (run_events_keep _ _ between st1 Hclear Hhit) as [Hhit2 Hloads].
  rewrite <-Hkey in Hhit2 at 1.
  rewrite (getDesignSystem_hit _ _ _ _ Hhit2). cbn [fst snd].
  split; [done|]. split; [by apply list_lookup_middle|]. split; [done|]. split; [done|].
  rewrite Hloads. unfold st1. rewrite loads_for_snoc. by rewrite decide_True.
Qed.
End DesignSystemCacheFacts.

Lemma getDesignSystem_coalesces_witness :
  (getDesignSystem (host := Fixtures.posix_host)
     (foldl (run_event (host := Fixtures.posix_host))
        (getDesignSystem (host := Fixtures.posix_host) fresh_process "/app" (Some "./app.css")).2
        [CallGetDesignSystem "/app" None; PromiseSettles 1])
     "/app" (Some "./app.css")).1
  = (getDesignSystem (host := Fixtures.posix_host) fresh_process "/app" (Some "./app.css")).1.
Proof.
  refine (proj1 (getDesignSystem_coalesces (host := Fixtures.posix_host)
                   fresh_process "/app" (Some "./app.css") "/app" (Some "./app.css")
                   [CallGetDesignSystem "/app" None; PromiseSettles 1] _ _ _)).
  - reflexivity.
  - reflexivity.
  - reflexivity.
Defined.

(** ** The batch driver *)

Lemma summary_loop results c u s e :
  foldl summary_step (mkSummary c u s e) results =
  mkSummary (c + count_status changed results) (u + count_status unchanged results)
    (s + count_status skipped results) (e + count_status error results).
Proof.
  revert c u s e. induction results as [|r rs IH]; intros c u s e.
  { unfold count_status. simpl. f_equal; lia. }
  simpl. unfold count_status in *. rewrite !filter_cons.
  destruct (status r) eqn:Hst; simpl; rewrite IH;
    repeat (destruct (decide _) as [?|?]; try congruence); simpl; f_equal; lia.
Qed.

Lemma summarizeResults_counts results :
  summarizeResults results =
  mkSummary (count_status changed results) (count_status unchanged results)
    (count_status skipped results) (count_status error results).
Proof. unfold summarizeResults. by rewrite summary_loop. Qed.

Lemma count_status_zero st results :
  count_status st results = 0 ↔ ∀ r, r ∈ results → status r ≠ st.
Proof.
  unfold count_status. rewrite length_zero_iff_nil. split.
  - intros Hnil r Hr Hst.
    assert (r ∈ filter (λ r, status r = st) results) as Hin
      by (by apply list_elem_of_filter).
    rewrite Hnil in Hin. by apply elem_of_nil in Hin.
  - intros Hno. destruct (filter _ results) as [|r l] eqn:Hf; [done|].
    assert (r ∈ filter (λ r, status r = st) results) as Hin by (rewrite Hf; by left).
    apply list_elem_of_filter in Hin as [Hst Hr]. by destruct (Hno r Hr).
Qed.

Section CliFacts.
Context {host : Host} {service : LanguageService} {platform : Platform}.

Lemma resolve_loop files seen result p :
  p ∈ (foldl resolve_step (seen, result) files).2 →
  p ∈ result ∨ (p ∈ files ∧ isSupportedExtension p = true).
Proof.
  revert seen result. induction files as [|f files IH]; intros seen result; simpl.
  { by left. }
  destruct (isSupportedExtension f) eqn:Hf; simpl.
  - case_bool_decide.
    + intros [?|[? ?]]%IH; [by left|right]. split; [by right|done].
    + intros [Hin|[? ?]]%IH.
      * apply elem_of_app in Hin as [?|Hin]; [by left|right].
        apply list_elem_of_singleton in Hin as ->. split; [by left|done].
      * right. split; [by right|done].
  - intros [?|[? ?]]%IH; [by left|right]. split; [by right|done].
Qed.

Lemma resolveTargetFiles_supported fs patterns root p :
  p ∈ resolveTargetFiles fs patterns root →
  p ∈ glob fs patterns root ∧ isSupportedExtension p = true.
Proof.
  unfold resolveTargetFiles. intros [Hin|?]%resolve_loop; [|done].
  by apply elem_of_nil in Hin.
Qed.

Lemma processFile_result fs path designSystem args :
  filePath (processFile fs path designSystem args).1 = path
  ∧ status (processFile fs path designSystem args).1 ≠ skipped.
Proof.
  unfold processFile.
  destruct (readFile fs path) as [text|m]; [|done].
  destruct (canonicalizeDocument _ _ _ _ _) as [nextText|m]; [|done].
  case_bool_decide; [done|].
  destruct (writeMode args); [|done].
  by destruct (writeFile fs path nextText) as [fs' [[]|m]].
Qed.

Lemma process_loop designSystem args paths results fs r :
  r ∈ (foldl (process_step designSystem args) (results, fs) paths).1 →
  r ∈ results ∨ (filePath r ∈ paths ∧ status r ≠ skipped).
Proof.
  revert results fs. induction paths as [|path paths IH]; intros results fs; simpl.
  { by left. }
  destruct (processFile fs path designSystem args) as [result fs'] eqn:Hp.
  intros [Hin|[? ?]]%IH.
  - apply elem_of_app in Hin as [?|Hin]; [by left|right].
    apply list_elem_of_singleton in Hin as ->.
    pose proof (processFile_result fs path designSystem args) as [Hpath Hst].
    rewrite Hp in Hpath, Hst. simpl in *. split; [rewrite Hpath; by left|done].
  - right. split; [by right|done].
Qed.

Lemma report_loop args results out ev :
  ev ∈ foldl (report_step args) out results →
  ev ∈ out ∨ ∃ r, r ∈ results ∧ (ev = LogResult r ∨ ev = ErrorResult r).
Proof.
  revert out. induction results as [|r rs IH]; intros out; simpl; [by left|].
  intros [Hin|(r' & ? & ?)]%IH.
  - unfold report_step in Hin.
    destruct (_ && _); [by left|].
    case_bool_decide; apply elem_of_app in Hin as [?|Hin]; try (by left);
      apply list_elem_of_singleton in Hin as ->; right; exists r;
      (split; [by left|auto]).
  - right. exists r'. split; [by right|done].
Qed.

(** The two ways a run ends: before the per-file loop, with one line and no
    result, or after it, with the summary. *)
Lemma main_cases fs args :
  (∃ code ev,
     main fs args = mkRun code [ev] [] fs
     ∧ (ev = LogUsage ∨ ev = ErrorNoMatchingFiles ∨ ev = ErrorDesignSystemNotDetected
        ∨ ∃ m, ev = UnhandledRejection m)
     ∧ (code = EXIT_FAILURE
        ∨ (help args = true ∧ targets args ≠ [] ∧ ev = LogUsage ∧ code = EXIT_SUCCESS)))
  ∨ (∃ designSystem results fs' report,
       foldl (process_step designSystem args) ([], fs)
         (resolveTargetFiles fs (targets args) (rootDir args)) = (results, fs')
       ∧ (∀ ev, ev ∈ report → ∃ r, r ∈ results ∧ (ev = LogResult r ∨ ev = ErrorResult r))
       ∧ main fs args =
         mkRun (if bool_decide (0 < sum_errors (summarizeResults results))
                then EXIT_FAILURE else EXIT_SUCCESS)
           (report ++ [LogDone (summarizeResults results)]) results fs').
Proof.
  unfold main.
  destruct (help args) eqn:Hhelp; simpl.
  { left. case_bool_decide as Hlen.
    - exists EXIT_FAILURE, LogUsage. split; [done|]. split; [by left|by left].
    - exists EXIT_SUCCESS, LogUsage. split; [done|]. split; [by left|right].
      split; [done|]. split; [|done]. intros Hnil. by rewrite Hnil in Hlen. }
  case_bool_decide as Hlen.
  { left. exists EXIT_FAILURE, LogUsage. split; [done|]. split; [by left|by left]. }
  case_bool_decide as Hres.
  { left. exists EXIT_FAILURE, ErrorNoMatchingFiles.
    split; [done|]. split; [right; by left|by left]. }
  destruct (awaitDesignSystem fs (rootDir args) (cssPath args)) as [[[[canon|] invalid]|]|m].
  - right.
    destruct (foldl _ _ _) as [results fs'] eqn:Hloop.
    exists (mkDesignSystem (Some canon) invalid), results, fs'.
    eexists. split; [done|]. split; [|reflexivity].
    intros ev Hev. destruct (_ || _); [|by apply elem_of_nil in Hev].
    apply report_loop in Hev as [Hev|?]; [by apply elem_of_nil in Hev|done].
  - left. exists EXIT_FAILURE, ErrorDesignSystemNotDetected.
    split; [done|]. split; [right; right; by left|by left].
  - left. exists EXIT_FAILURE, ErrorDesignSystemNotDetected.
    split; [done|]. split; [right; right; by left|by left].
  - left. exists EXIT_FAILURE, (UnhandledRejection m).
    split; [done|]. split; [right; right; right; by exists m|by left].
Qed.

(** A request for help, and a run without targets, print the usage. *)
Lemma main_usage fs args :
  help args = true ∨ targets args = [] →
  main fs args =
  mkRun (if bool_decide (targets args = []) then EXIT_FAILURE else EXIT_SUCCESS)
    [LogUsage] [] fs.
Proof.
  intros Hwhy. unfold main.
  assert (help args || bool_decide (length (targets args) = 0) = true) as ->.
  { destruct Hwhy as [->| ->]; [done|]. by rewrite orb_true_r. }
  f_equal. destruct (targets args); by repeat case_bool_decide.
Qed.

(** A run with targets of which no supported file remains. *)
Lemma main_no_matching_files fs args :
  help args = false → targets args ≠ [] →
  resolveTargetFiles fs (targets args) (rootDir args) = [] →
  main fs args = mkRun EXIT_FAILURE [ErrorNoMatchingFiles] [] fs.
Proof.
  intros Hhelp Htargets Hnone. unfold main. rewrite Hhelp, Hnone. simpl.
  rewrite bool_decide_eq_false_2; [done|].
  by destruct (targets args).
Qed.
End CliFacts.

Section CliTheorems.
Context {host : Host} {service : LanguageService} {platform : Platform}.

Lemma main_results fs args r :
  r ∈ results (main fs args) →
  filePath r ∈ resolveTargetFiles fs (targets args) (rootDir args) ∧ status r ≠ skipped.
Proof.
  destruct (main_cases fs args) as
    [(code & ev & -> & _)|(designSystem & rs & fs' & report & Hloop & _ & ->)]; simpl.
  { by intros ?%elem_of_nil. }
  intros Hr.
  pose proof (process_loop designSystem args
                (resolveTargetFiles fs (targets args) (rootDir args)) [] fs r) as Hp.
  rewrite Hloop in Hp. destruct (Hp Hr) as [Hnil|?]; [|done].
  by apply elem_of_nil in Hnil.
Qed.

Lemma main_console_results fs args r :
  LogResult r ∈ console (main fs args) ∨ ErrorResult r ∈ console (main fs args) →
  r ∈ results (main fs args).
Proof.
  destruct (main_cases fs args) as
    [(code & ev' & -> & Hev & _)|(designSystem & rs & fs' & report & _ & Hreport & ->)];
    simpl.
  - intros [Hin|Hin]; apply list_elem_of_singleton in Hin;
      destruct Hev as [->|[->|[->|[m ->]]]]; discriminate.
  - intros [Hin|Hin]; apply elem_of_app in Hin as [Hin|Hin];
      try (apply list_elem_of_singleton in Hin; discriminate);
      destruct (Hreport _ Hin) as (r' & Hr' & [[= ->]|[= ->]]); done.
Qed.

Lemma main_summary fs args summary :
  LogDone summary ∈ console (main fs args) →
  summary = summarizeResults (results (main fs args))
  ∧ exitCode (main fs args)
    = if bool_decide (0 < sum_errors summary) then EXIT_FAILURE else EXIT_SUCCESS.
Proof.
  destruct (main_cases fs args) as
    [(code & ev' & -> & Hev & _)|(designSystem & rs & fs' & report & _ & Hreport & ->)];
    simpl.
  - intros Hin%list_elem_of_singleton.
    destruct Hev as [->|[->|[->|[m ->]]]]; discriminate.
  - intros [Hin|Hin]%elem_of_app.
    + destruct (Hreport _ Hin) as (r' & _ & [?|?]); discriminate.
    + apply list_elem_of_singleton in Hin as [= ->]. done.
Qed.

(** C8, as amended. A file with an unsupported extension is removed by the
    target resolver before the per-file loop: it is no target of the run,
    no per-file result and no line of the report is about it, so it is
    reported neither as an error nor as skipped; no result of a run has the
    status [skipped] and the summary's [skipped] count is zero. When the
    glob finds unsupported files only, no target remains; a run with
    targets and without [--help] of which no target remains stops with
    [No matching files found.], a failure exit, no result and the file
    system untouched, whereas a request for help with targets prints the
    usage and exits with success before the targets are resolved. *)
Theorem unsupported_target_never_reported fs args p :
  isSupportedExtension p = false →
  (p ∉ resolveTargetFiles fs (targets args) (rootDir args))
  ∧ (∀ r, r ∈ results (main fs args) → filePath r ≠ p ∧ status r ≠ skipped)
  ∧ (∀ r, LogResult r ∈ console (main fs args) ∨ ErrorResult r ∈ console (main fs args) →
          filePath r ≠ p)
  ∧ sum_skipped (summarizeResults (results (main fs args))) = 0
  ∧ (∀ summary, LogDone summary ∈ console (main fs args) → sum_skipped summary = 0)
  ∧ (Forall (λ q, isSupportedExtension q = false)
       (glob fs (targets args) (rootDir args)) →
     resolveTargetFiles fs (targets args) (rootDir args) = [])
  ∧ (help args = false → targets args ≠ [] →
     resolveTargetFiles fs (targets args) (rootDir args) = [] →
     main fs args = mkRun EXIT_FAILURE [ErrorNoMatchingFiles] [] fs)
  ∧ (help args = true → targets args ≠ [] →
     main fs args = mkRun EXIT_SUCCESS [LogUsage] [] fs).
Proof.
  intros Hp.
  assert (p ∉ resolveTargetFiles fs (targets args) (rootDir args)) as Hnot.
  { intros [_ Hs]%resolveTargetFiles_supported. congruence. }
  assert (∀ r, r ∈ results (main fs args) → filePath r ≠ p ∧ status r ≠ skipped) as Hres.
  { intros r [Hin Hst]%main_results. split; [|done]. by intros <-. }
  assert (sum_skipped (summarizeResults (results (main fs args))) = 0) as Hzero.
  { rewrite summarizeResults_counts. simpl. apply count_status_zero.
    intros r Hr. by apply Hres. }
  split; [done|]. split; [done|]. split; [|split; [done|split; [|split; [|split]]]].
  - intros r Hr%main_console_results. by apply Hres.
  - intros summary [-> _]%main_summary. done.
  - intros Hall.
    destruct (resolveTargetFiles fs (targets args) (rootDir args)) as [|q qs] eqn:Hq;
      [done|].
    assert (q ∈ resolveTargetFiles fs (targets args) (rootDir args)) as Hin
      by (rewrite Hq; by left).
    apply resolveTargetFiles_supported in Hin as [Hglob Hsup].
    rewrite Forall_forall in Hall. rewrite (Hall q Hglob) in Hsup. discriminate.
  - apply main_no_matching_files.
  - intros Hhelp Htargets. rewrite main_usage by (by left).
    by rewrite bool_decide_eq_false_2.
Qed.

End CliTheorems.

(** ** Runs of the batch driver on a file system in memory *)

Module Runs.
Import Fixtures.

Example batch_run :
  exitCode (batch (Some a_design_system)
              ["logo.png"; "page.html"; "old.html"; "locked.html"; "page.html"])
  = EXIT_FAILURE
  ∧ console (batch (Some a_design_system)
               ["logo.png"; "page.html"; "old.html"; "locked.html"; "page.html"])
    = [LogDone (mkSummary 1 1 0 1)]
  ∧ results (batch (Some a_design_system)
               ["logo.png"; "page.html"; "old.html"; "locked.html"; "page.html"])
    = [mkFileResult "/app/page.html" unchanged 0 None;
       mkFileResult "/app/old.html" changed 1 None;
       mkFileResult "/app/locked.html" error 0 (Some "EACCES")]
  ∧ fs_after (batch (Some a_design_system)
                ["logo.png"; "page.html"; "old.html"; "locked.html"; "page.html"])
      !! "/app/old.html" = Some (Some "p-2 m-1").
Proof. repeat split; by vm_compute. Qed.

(** As the claim on unsupported files is worded, [logo.png], given as a
    target and found by the glob, would have a result of status [skipped].
    The run has one result, for [page.html], and counts nothing as skipped;
    given alone, [logo.png] makes the run fail for want of matching files. *)
Lemma unsupported_target_not_reported_as_skipped :
  "/app/logo.png" ∈ glob (Platform := memory_platform (Some a_design_system))
                       project ["logo.png"; "page.html"] "/app"
  ∧ isSupportedExtension (host := posix_host) "/app/logo.png" = false
  ∧ results (batch (Some a_design_system) ["logo.png"; "page.html"])
    = [mkFileResult "/app/page.html" unchanged 0 None]
  ∧ console (batch (Some a_design_system) ["logo.png"; "page.html"])
    = [LogDone (mkSummary 0 1 0 0)]
  ∧ ¬ (∃ r, r ∈ results (batch (Some a_design_system) ["logo.png"; "page.html"])
            ∧ filePath r = "/app/logo.png" ∧ status r = skipped)
  ∧ results (batch (Some a_design_system) ["logo.png"]) = []
  ∧ console (batch (Some a_design_system) ["logo.png"]) = [ErrorNoMatchingFiles]
  ∧ exitCode (batch (Some a_design_system) ["logo.png"]) = EXIT_FAILURE.
Proof.
  assert (results (batch (Some a_design_system) ["logo.png"; "page.html"])
          = [mkFileResult "/app/page.html" unchanged 0 None]) as Hres
    by (by vm_compute).
  split; [by apply (bool_decide_unpack _); vm_compute|].
  split; [by vm_compute|]. split; [done|]. split; [by vm_compute|].
  split; [|by vm_compute].
  rewrite Hres. intros (r & Hr & Hp & _).
  apply list_elem_of_singleton in Hr as ->. discriminate Hp.
Qed.

Lemma unsupported_target_never_reported_witness :
  isSupportedExtension (host := posix_host) "/app/logo.png" = false
  ∧ sum_skipped
      (summarizeResults (results (batch (Some a_design_system) ["logo.png"; "page.html"])))
    = 0.
Proof.
  assert (isSupportedExtension (host := posix_host) "/app/logo.png" = false) as Hpng
    by reflexivity.
  split; [exact Hpng|].
  exact (proj1 (proj2 (proj2 (proj2
    (unsupported_target_never_reported
       (host := posix_host) (service := scripted_service spacing_analyzer)
       (platform := memory_platform (Some a_design_system))
       project (args_for ["logo.png"; "page.html"]) "/app/logo.png" Hpng))))).
Defined.



End Runs.

(** * Further properties

    Properties of the code beyond the statements of the specification:
    the rest of the canonicalizer, the batch driver, the design-system
    loader, the Prettier plugin and the single-file tool. *)

(** ** The edit applier on arbitrary edits *)

Lemma surviving_sublist lastStart l : surviving lastStart l `sublist_of` l.
Proof.
  revert lastStart. induction l as [|e l IH]; intros lastStart; simpl; [done|].
  destruct (exceeds _ _); [apply sublist_cons, IH|apply sublist_skip, IH].
Qed.

Lemma surviving_below l s :
  Forall (λ y, startOffset y ≤ s) l → StronglySorted descending_start l →
  Forall (λ y, endOffset y ≤ s) (surviving (Finite s) l).
Proof.
  revert s. induction l as [|e l IH]; intros s Hs Hsorted; simpl; [constructor|].
  apply Forall_cons in Hs as [He Hs].
  apply StronglySorted_inv in Hsorted as [Hsorted Hle].
  case_bool_decide as Hskip.
  - by apply IH.
  - constructor; [lia|].
    eapply Forall_impl; [apply IH; [exact Hle|exact Hsorted]|].
    intros y Hy. simpl in Hy. lia.
Qed.

Lemma surviving_ends_before l lastStart :
  StronglySorted descending_start l →
  StronglySorted ends_before (surviving lastStart l).
Proof.
  revert lastStart. induction l as [|e l IH]; intros lastStart Hsorted; simpl.
  { constructor. }
  apply StronglySorted_inv in Hsorted as [Hsorted Hle].
  destruct (exceeds _ _); [by apply IH|].
  constructor; [by apply IH|].
  by apply surviving_below.
Qed.

Lemma surviving_skipped l lastStart e :
  StronglySorted descending_start l →
  e ∈ l → e ∉ surviving lastStart l →
  overlaps_applied e lastStart
  ∨ ∃ a, a ∈ surviving lastStart l
         ∧ startOffset a < endOffset e ∧ startOffset e ≤ startOffset a.
Proof.
  revert lastStart. induction l as [|h l IH]; intros lastStart Hsorted Hin Hnot.
  { by apply elem_of_nil in Hin. }
  apply StronglySorted_inv in Hsorted as [Hsorted Hle].
  simpl in Hnot |- *.
  destruct (exceeds (endOffset h) lastStart) eqn:Hskip.
  - apply elem_of_cons in Hin as [->|Hin].
    + left. by apply exceeds_overlaps.
    + by apply IH.
  - apply not_elem_of_cons in Hnot as [Hne Hnot].
    apply elem_of_cons in Hin as [->|Hin]; [done|].
    destruct (IH (Finite (startOffset h)) Hsorted Hin Hnot) as [Hover|(a & Ha & ? & ?)].
    + right. exists h. split; [by left|]. simpl in Hover.
      split; [lia|]. rewrite Forall_forall in Hle. by apply Hle.
    + right. exists a. split; [by right|done].
Qed.

(** X1. Whatever the edits are, [applyTextEdits] never applies two edits that
    overlap: the edits it applies, in the order it applies them, each end
    where all the edits applied before them have not yet started; they are
    taken from the edits sorted by descending start; an edit it skips
    overlaps an applied edit that starts at or after it; and an edit with
    the greatest start offset is always applied, first. *)
Theorem applyTextEdits_never_applies_overlapping text edits :
  let sorted := array_sort by_descending_start edits in
  let applied := surviving PosInfinity sorted in
  applyTextEdits text edits = foldl splice text applied
  ∧ applied `sublist_of` sorted
  ∧ StronglySorted ends_before applied
  ∧ (∀ e, e ∈ edits → e ∉ applied →
          ∃ a, a ∈ applied ∧ startOffset a < endOffset e ∧ startOffset e ≤ startOffset a)
  ∧ (edits ≠ [] →
     ∃ first rest, applied = first :: rest ∧ first ∈ edits
                   ∧ Forall (λ e, startOffset e ≤ startOffset first) edits).
Proof.
  intros sorted applied.
  pose proof (array_sort_descending edits) as Hsorted.
  pose proof (array_sort_Permutation by_descending_start edits) as Hperm.
  split; [|split; [|split; [|split]]].
  - rewrite applyTextEdits_unfold. apply apply_loop_surviving.
  - apply surviving_sublist.
  - by apply surviving_ends_before.
  - intros e He Hnot.
    assert (e ∈ sorted) as Hin by (by subst sorted; rewrite Hperm).
    destruct (surviving_skipped sorted PosInfinity e Hsorted Hin Hnot) as [[]|?]; done.
  - intros Hne. subst applied sorted.
    destruct (array_sort by_descending_start edits) as [|first rest] eqn:Hs.
    { apply Permutation_nil_l in Hperm. congruence. }
    exists first, (surviving (Finite (startOffset first)) rest).
    split; [done|]. split; [rewrite <- Hperm; by left|].
    rewrite <- Hperm. apply StronglySorted_inv in Hsorted as [_ Hle].
    constructor; [done|exact Hle].
Qed.

Lemma apply_loop_prefix m l out lastStart :
  m ≤ String.length out → Forall (λ e, m ≤ startOffset e) l →
  JsString.take m (foldl apply_step (out, lastStart) l).1 = JsString.take m out
  ∧ m ≤ String.length (foldl apply_step (out, lastStart) l).1.
Proof.
  revert out lastStart. induction l as [|e l IH]; intros out lastStart Hm Hl; simpl.
  { done. }
  apply Forall_cons in Hl as [He Hl].
  destruct (exceeds _ _); [by apply IH|].
  assert (m ≤ String.length (JsString.take (startOffset e) out)) as Hlen.
  { rewrite JsStringFacts.length_take. lia. }
  destruct (IH (splice out e) (Finite (startOffset e))) as [Htake Hlen'].
  - rewrite splice_eq, JsStringFacts.length_app. lia.
  - done.
  - split; [|done]. rewrite Htake, splice_eq.
    rewrite JsStringFacts.take_app_le by done.
    by apply JsStringFacts.take_take.
Qed.

(** X2. [applyTextEdits] never changes the text before the smallest start
    offset of its edits: when every edit starts at or after offset [m] of
    the text, the first [m] characters of the result are those of the
    input, whether the edits overlap or not. *)
Theorem applyTextEdits_keeps_prefix text edits m :
  m ≤ String.length text →
  Forall (λ e, m ≤ startOffset e) edits →
  JsString.take m (applyTextEdits text edits) = JsString.take m text.
Proof.
  intros Hm Hall. rewrite applyTextEdits_unfold.
  apply apply_loop_prefix; [done|].
  by rewrite (array_sort_Permutation by_descending_start edits).
Qed.

Lemma applyTextEdits_keeps_prefix_witness :
  JsString.take 8 (applyTextEdits "a[16px]b[8px]c" [edit_Y; mkTextEdit 9 11 "Z" "8p"])
  = JsString.take 8 "a[16px]b[8px]c".
Proof.
  apply applyTextEdits_keeps_prefix; [simpl; lia|].
  repeat constructor; simpl; lia.
Defined.

Lemma splice_loop_length l out limit :
  limit ≤ String.length out →
  StronglySorted ends_before l → Forall valid_edit l →
  Forall (λ e, endOffset e ≤ limit) l →
  String.length (foldl splice out l) + removed_length l
  = String.length out + inserted_length l.
Proof.
  unfold removed_length, inserted_length.
  revert out limit. induction l as [|e l IH]; intros out limit Hlimit Hsep Hvalid Hin.
  { done. }
  apply StronglySorted_inv in Hsep as [Hsep Hbefore].
  apply Forall_cons in Hvalid as [He Hvalid].
  apply Forall_cons in Hin as [Hend Hin].
  unfold valid_edit in He.
  assert (String.length (splice out e) + (endOffset e - startOffset e)
          = String.length out + String.length (replacement e)) as Hstep.
  { rewrite splice_eq, !JsStringFacts.length_app, JsStringFacts.length_take,
      JsStringFacts.length_drop. lia. }
  assert (startOffset e ≤ String.length (splice out e)) as Hlen.
  { rewrite splice_eq, JsStringFacts.length_app, JsStringFacts.length_take. lia. }
  pose proof (IH (splice out e) (startOffset e) Hlen Hsep Hvalid Hbefore) as IH'.
  rewrite !fmap_cons. cbn [foldl sum_list_with]. unfold id at 1 3. lia.
Qed.

Lemma applied_ranges_replaced text edits :
  Forall valid_edit edits →
  Forall (λ e, endOffset e ≤ String.length text) edits →
  let applied := surviving PosInfinity (array_sort by_descending_start edits) in
  applyTextEdits text edits = replace_ranges text (reverse applied)
  ∧ String.length (applyTextEdits text edits) + removed_length applied
    = String.length text + inserted_length applied.
Proof.
  intros Hvalid Hin applied.
  pose proof (array_sort_Permutation by_descending_start edits) as Hperm.
  assert (∀ P : TextEdit → Prop, Forall P edits → Forall P applied) as Hsub.
  { intros P HP. apply Forall_forall. intros e He.
    rewrite Forall_forall in HP. apply HP. rewrite <- Hperm.
    eapply elem_of_sublist; [exact He|apply surviving_sublist]. }
  assert (StronglySorted ends_before applied) as Hsep
    by apply surviving_ends_before, array_sort_descending.
  assert (applyTextEdits text edits = foldl splice text applied) as ->.
  { rewrite applyTextEdits_unfold. apply apply_loop_surviving. }
  split.
  - pose proof (splice_loop text applied (String.length text) "") as Hloop.
    rewrite JsStringFacts.take_ge, !JsStringFacts.app_empty_r in Hloop by done.
    apply Hloop; [done|done|by apply Hsub|by apply Hsub].
  - apply (splice_loop_length applied text (String.length text));
      [done|done|by apply Hsub|by apply Hsub].
Qed.

(** X3. For edits that satisfy the [TextEdit] invariant and lie within the
    text, overlapping or not, the result of [applyTextEdits] is the input
    text in which the range of every applied edit, taken as offsets into the
    input text, is replaced by its replacement, and nothing else is
    changed; its length is the length of the input minus the characters
    the applied edits remove plus those they insert. *)
Theorem applyTextEdits_replaces_applied_ranges text edits :
  Forall valid_edit edits →
  Forall (λ e, endOffset e ≤ String.length text) edits →
  let applied := surviving PosInfinity (array_sort by_descending_start edits) in
  applyTextEdits text edits = replace_ranges text (reverse applied)
  ∧ String.length (applyTextEdits text edits) + removed_length applied
    = String.length text + inserted_length applied.
Proof. apply applied_ranges_replaced. Qed.

Lemma applyTextEdits_replaces_applied_ranges_witness :
  applyTextEdits "0123456789" [edit_A; edit_B] = replace_ranges "0123456789" [edit_B]
  ∧ String.length (applyTextEdits "0123456789" [edit_A; edit_B]) + 5 = 10 + 1.
Proof.
  apply (applyTextEdits_replaces_applied_ranges "0123456789" [edit_A; edit_B]).
  - repeat constructor; unfold valid_edit; simpl; lia.
  - repeat constructor; simpl; lia.
Defined.

(** ** Deduplication *)

Lemma first_of_each_range_new earlier edits :
  Forall (λ e, ¬ Exists (same_range e) earlier) (first_of_each_range earlier edits)
  ∧ NoDup ((λ e, (startOffset e, endOffset e)) <$> first_of_each_range earlier edits).
Proof.
  revert earlier. induction edits as [|e edits IH]; intros earlier; simpl.
  { split; constructor. }
  destruct (IH (earlier ++ [e])) as [Hnew Hdup].
  assert (Forall (λ e', ¬ Exists (same_range e') earlier)
            (first_of_each_range (earlier ++ [e]) edits)) as Hnew'.
  { eapply Forall_impl; [exact Hnew|]. intros e' Hno Hex. apply Hno.
    apply Exists_app. by left. }
  case_bool_decide as Hseen; [done|].
  split; [by constructor|].
  rewrite fmap_cons. constructor; [|done].
  intros Hin. apply list_elem_of_fmap in Hin as (e' & Heq & He').
  rewrite Forall_forall in Hnew. apply (Hnew e' He').
  apply Exists_app. right. apply Exists_cons. left.
  unfold same_range. by inversion Heq.
Qed.

Lemma first_of_each_range_fixed earlier l :
  Forall (λ e, ¬ Exists (same_range e) earlier) l →
  NoDup ((λ e, (startOffset e, endOffset e)) <$> l) →
  first_of_each_range earlier l = l.
Proof.
  revert earlier. induction l as [|e l IH]; intros earlier Hnew Hdup; simpl; [done|].
  apply Forall_cons in Hnew as [He Hnew].
  rewrite fmap_cons in Hdup. apply NoDup_cons in Hdup as [Hnotin Hdup].
  case_bool_decide as Hseen; [by destruct (He Hseen)|].
  f_equal. apply IH; [|done].
  apply Forall_forall. intros e' He' Hex.
  apply Exists_app in Hex as [Hex|Hex].
  - rewrite Forall_forall in Hnew. by apply (Hnew e' He').
  - apply Exists_cons in Hex as [[Hs Hend]|Hex]; [|by apply Exists_nil in Hex].
    apply Hnotin. apply list_elem_of_fmap. exists e'. split; [|done].
    by rewrite Hs, Hend.
Qed.

(** X4. The edits [dedupeEdits] returns have pairwise different
    [(startOffset, endOffset)] ranges; deduplicating them again changes
    nothing; the result is never longer than the input and starts with the
    first edit of the input. *)
Theorem dedupeEdits_distinct_ranges edits :
  NoDup ((λ e, (startOffset e, endOffset e)) <$> dedupeEdits edits)
  ∧ dedupeEdits (dedupeEdits edits) = dedupeEdits edits
  ∧ length (dedupeEdits edits) ≤ length edits
  ∧ head (dedupeEdits edits) = head edits.
Proof.
  rewrite (dedupeEdits_spec (dedupeEdits edits)), !dedupeEdits_spec.
  destruct (first_of_each_range_new [] edits) as [Hnew Hdup].
  split; [done|]. split; [by apply first_of_each_range_fixed|].
  split; [apply sublist_length, first_of_each_range_sublist|].
  by destruct edits.
Qed.

(** ** The pipeline of [canonicalizeDocument] *)

Section PipelineMore.
Context {host : Host} {service : LanguageService}.

(** X5. [canonicalizeDocument] fails only when the analyzer fails, and then
    with the analyzer's own error: for a path with an unsupported extension
    it returns the text without consulting the analyzer, and for a supported
    one the rejection of [doValidate] is passed on unchanged; no other step
    of the pipeline raises. *)
Theorem canonicalizeDocument_fails_with_analyzer
    text filePath designSystem rootDir rootFontSize :
  let state :=
    createLanguageServiceState designSystem rootDir
      (createSettings (default DEFAULT_ROOT_FONT_SIZE rootFontSize)) in
  (inferLanguageId filePath = None →
   canonicalizeDocument text filePath designSystem rootDir rootFontSize = Returned text)
  ∧ (∀ languageId m,
       inferLanguageId filePath = Some languageId →
       doValidate state (createTextDocument filePath languageId text) = Thrown m →
       canonicalizeDocument text filePath designSystem rootDir rootFontSize = Thrown m)
  ∧ (∀ m,
       canonicalizeDocument text filePath designSystem rootDir rootFontSize = Thrown m →
       ∃ languageId,
         inferLanguageId filePath = Some languageId
         ∧ doValidate state (createTextDocument filePath languageId text) = Thrown m).
Proof.
  intros state. unfold canonicalizeDocument, buildCanonicalEdits. fold state.
  split; [by intros ->|]. split.
  - intros languageId m -> Hfail. by rewrite Hfail.
  - intros m. destruct (inferLanguageId filePath) as [languageId|]; [|done].
    intros Hfail. exists languageId. split; [done|].
    destruct (doValidate state _) as [diagnostics|m']; simpl in Hfail.
    + by case_bool_decide.
    + by inversion Hfail.
Qed.

Lemma built_edits_provenance document diagnostics e :
  e ∈ dedupeEdits (omap (translate document) diagnostics) →
  ∃ d s, d ∈ diagnostics ∧ translatable document d s ∧ e = edit_for document d s.
Proof.
  intros (d & Hd & Ht)%dedupeEdits_elem_of%list_elem_of_omap.
  apply translate_Some in Ht as (s & Hs & ->). by exists d, s.
Qed.

(** X6. When the ranges the analyzer reports lie within the text,
    [canonicalizeDocument] returns the input text in which a family of
    reported ranges, none overlapping another, is replaced, each by the
    primary suggestion of a diagnostic that reports it, and in which nothing
    else is changed; the offsets are those of the input text. *)
Theorem canonicalizeDocument_replaces_reported_ranges
    text filePath designSystem rootDir rootFontSize languageId diagnostics :
  let state :=
    createLanguageServiceState designSystem rootDir
      (createSettings (default DEFAULT_ROOT_FONT_SIZE rootFontSize)) in
  let document := createTextDocument filePath languageId text in
  inferLanguageId filePath = Some languageId →
  doValidate state document = Returned diagnostics →
  Forall (λ d, end_of document d ≤ String.length text) diagnostics →
  ∃ applied,
    canonicalizeDocument text filePath designSystem rootDir rootFontSize
    = Returned (replace_ranges text (reverse applied))
    ∧ StronglySorted ends_before applied
    ∧ (∀ e, e ∈ applied →
            ∃ d s, d ∈ diagnostics ∧ translatable document d s
                   ∧ e = edit_for document d s)
    ∧ String.length (replace_ranges text (reverse applied)) + removed_length applied
      = String.length text + inserted_length applied.
Proof.
  intros state document Hlang Hdiag Hin.
  unfold canonicalizeDocument. rewrite Hlang. fold state document.
  rewrite (buildCanonicalEdits_eq _ _ _ Hdiag). simpl.
  set (edits := dedupeEdits (omap (translate document) diagnostics)).
  assert (Forall valid_edit edits) as Hvalid.
  { apply Forall_forall. intros e (d & s & _ & (_ & _ & _ & Hlt) & ->)%built_edits_provenance.
    exact Hlt. }
  assert (Forall (λ e, endOffset e ≤ String.length text) edits) as Hbound.
  { apply Forall_forall. intros e (d & s & Hd & _ & ->)%built_edits_provenance.
    rewrite Forall_forall in Hin. exact (Hin d Hd). }
  destruct (applied_ranges_replaced text edits Hvalid Hbound) as [Happly Hlen].
  exists (surviving PosInfinity (array_sort by_descending_start edits)).
  split; [|split; [|split]].
  - case_bool_decide as Hnil; [|by rewrite Happly].
    rewrite <- Happly. unfold applyTextEdits.
    by rewrite bool_decide_eq_true_2 by done.
  - apply surviving_ends_before, array_sort_descending.
  - intros e He. apply built_edits_provenance. fold edits.
    rewrite <- (array_sort_Permutation by_descending_start edits).
    eapply elem_of_sublist; [exact He|apply surviving_sublist].
  - by rewrite <- Happly.
Qed.
End PipelineMore.

Lemma canonicalizeDocument_replaces_reported_ranges_witness :
  ∃ applied,
    canonicalizeDocument (host := Fixtures.posix_host)
      (service := Fixtures.scripted_service Fixtures.scale_analyzer)
      "mt-[16px] p-[8px]" "/app/page.html" Fixtures.a_design_system "/app" None
    = Returned (replace_ranges "mt-[16px] p-[8px]" (reverse applied))
    ∧ StronglySorted ends_before applied.
Proof.
  destruct (canonicalizeDocument_replaces_reported_ranges
              (host := Fixtures.posix_host)
              (service := Fixtures.scripted_service Fixtures.scale_analyzer)
              "mt-[16px] p-[8px]" "/app/page.html" Fixtures.a_design_system "/app" None
              "html" [Fixtures.suggest 10 17 ["p-2"]; Fixtures.suggest 0 9 ["mt-4"]])
    as (applied & Hresult & Hsep & _).
  - reflexivity.
  - reflexivity.
  - repeat constructor; vm_compute; lia.
  - exists applied. split; [exact Hresult|exact Hsep].
Defined.

(** ** The batch driver: targets, counts and changed lines *)

Lemma first_occurrences_spec earlier l :
  Forall (λ x, x ∉ earlier) (first_occurrences earlier l)
  ∧ NoDup (first_occurrences earlier l)
  ∧ (∀ x, x ∈ first_occurrences earlier l ↔ x ∈ l ∧ x ∉ earlier)
  ∧ first_occurrences earlier l `sublist_of` l.
Proof.
  revert earlier. induction l as [|y l IH]; intros earlier; simpl.
  { split; [constructor|]. split; [constructor|]. split; [|done].
    intros x. split; [by intros ?%elem_of_nil|by intros [?%elem_of_nil _]]. }
  case_bool_decide as Hy.
  - destruct (IH earlier) as (Hnew & Hdup & Hmem & Hsub).
    split; [done|]. split; [done|]. split; [|by apply sublist_cons].
    intros x. rewrite Hmem, elem_of_cons. split; [intros [? ?]; by split; [right|]|].
    intros [[->|?] ?]; done.
  - destruct (IH (y :: earlier)) as (Hnew & Hdup & Hmem & Hsub).
    split; [|split; [|split; [|by apply sublist_skip]]].
    + constructor; [done|]. eapply Forall_impl; [exact Hnew|].
      intros x Hx Hin. apply Hx. by right.
    + constructor; [|done]. intros Hin. rewrite Forall_forall in Hnew.
      apply (Hnew y Hin). by left.
    + intros x. rewrite !elem_of_cons, Hmem, not_elem_of_cons. split.
      * intros [->|[? [? ?]]]; [by split; [left|]|by split; [right|]].
      * intros [[->|?] ?]; [by left|].
        destruct (decide (x = y)) as [->|?]; [by left|by right].
Qed.

Section TargetFacts.
Context {host : Host} {service : LanguageService} {platform : Platform}.

Lemma resolve_loop_first_occurrences files seen result earlier :
  (∀ p, p ∈ seen ↔ p ∈ earlier) →
  (foldl resolve_step (seen, result) files).2 =
  result ++ first_occurrences earlier
              (filter (λ p, isSupportedExtension p = true) files).
Proof.
  revert seen result earlier.
  induction files as [|f files IH]; intros seen result earlier Hseen; simpl.
  { by rewrite app_nil_r. }
  rewrite filter_cons.
  destruct (decide (isSupportedExtension f = true)) as [Hsup|Hsup].
  - rewrite Hsup. cbn [negb first_occurrences].
    case_bool_decide as Hin; case_bool_decide as Hin'.
    + by apply IH.
    + destruct Hin'. by apply Hseen.
    + destruct Hin. by apply Hseen.
    + rewrite (IH _ _ (f :: earlier)); [by rewrite <- app_assoc|].
      intros p. rewrite elem_of_union, elem_of_singleton, elem_of_cons, Hseen. done.
  - apply not_true_is_false in Hsup. rewrite Hsup. cbn [negb]. by apply IH.
Qed.

Lemma resolveTargetFiles_first_occurrences fs patterns root :
  resolveTargetFiles fs patterns root =
  first_occurrences []
    (filter (λ p, isSupportedExtension p = true) (glob fs patterns root)).
Proof.
  unfold resolveTargetFiles.
  rewrite (resolve_loop_first_occurrences _ ∅ [] []); [done|].
  intros p. split; [by intros ?%elem_of_empty|by intros ?%elem_of_nil].
Qed.

(** X7. [resolveTargetFiles] returns every supported file the glob finds
    exactly once: its result has no duplicates, holds exactly the files of
    the glob's result that have a supported extension, and keeps them in
    the order of their first occurrence there. *)
Theorem resolveTargetFiles_distinct_supported fs patterns root :
  let files := glob fs patterns root in
  let result := resolveTargetFiles fs patterns root in
  result = first_occurrences [] (filter (λ p, isSupportedExtension p = true) files)
  ∧ NoDup result
  ∧ (∀ p, p ∈ result ↔ p ∈ files ∧ isSupportedExtension p = true)
  ∧ result `sublist_of` files.
Proof.
  intros files result. subst result.
  rewrite resolveTargetFiles_first_occurrences. fold files.
  destruct (first_occurrences_spec []
              (filter (λ p, isSupportedExtension p = true) files))
    as (_ & Hdup & Hmem & Hsub).
  split; [done|]. split; [done|]. split.
  - intros p. rewrite Hmem, list_elem_of_filter.
    split; [by intros [[? ?] _]|intros [? ?]; split; [done|by intros ?%elem_of_nil]].
  - etrans; [exact Hsub|]. apply sublist_filter.
Qed.
End TargetFacts.

Lemma count_status_total results :
  count_status changed results + count_status unchanged results
  + count_status skipped results + count_status error results = length results.
Proof.
  unfold count_status. induction results as [|r rs IH]; [done|].
  rewrite !filter_cons. simpl.
  destruct (status r); repeat case_decide; try done; simpl; lia.
Qed.

(** X8. The four counts of [summarizeResults] partition the results: they
    add up to the number of results, each result being counted once under
    its status; and the summary does not depend on the order of the
    results. *)
Theorem summarizeResults_partitions results :
  sum_changed (summarizeResults results) + sum_unchanged (summarizeResults results)
  + sum_skipped (summarizeResults results) + sum_errors (summarizeResults results)
  = length results
  ∧ (∀ results', results' ≡ₚ results →
                 summarizeResults results' = summarizeResults results).
Proof.
  split.
  - rewrite summarizeResults_counts. simpl. apply count_status_total.
  - intros results' Hperm. rewrite !summarizeResults_counts.
    unfold count_status. by rewrite !Hperm.
Qed.

Lemma split_lines_nonempty s : split_lines s ≠ [].
Proof.
  destruct s as [|c s]; simpl; [done|].
  case_bool_decide; [done|]. by destruct (split_lines s).
Qed.

Lemma join_lines_cons c l ls :
  join_lines (String c l :: ls) = String c (join_lines (l :: ls)).
Proof. destruct ls; [done|]. simpl. by rewrite JsStringFacts.app_cons. Qed.

Lemma join_split_lines s : join_lines (split_lines s) = s.
Proof.
  induction s as [|c s IH]; [done|]. simpl.
  pose proof (split_lines_nonempty s) as Hne.
  case_bool_decide as Hc.
  - destruct (split_lines s) as [|l ls] eqn:Hs; [done|].
    change (join_lines ("" :: l :: ls)) with ("" +:+ String "010" (join_lines (l :: ls))).
    by rewrite JsStringFacts.app_empty_l, IH, Hc.
  - destruct (split_lines s) as [|l ls] eqn:Hs; [done|].
    by rewrite join_lines_cons, IH.
Qed.

Lemma split_lines_inj a b : split_lines a = split_lines b → a = b.
Proof.
  intros Heq. by rewrite <- (join_split_lines a), <- (join_split_lines b), Heq.
Qed.

Lemma filter_length_zero {A} (P : A → Prop) `{!∀ x, Decision (P x)} (l : list A) :
  length (filter P l) = 0 ↔ Forall (λ x, ¬ P x) l.
Proof.
  induction l as [|x l IH]; [by split; [constructor|]|].
  rewrite filter_cons, Forall_cons. case_decide; simpl;
    [|rewrite IH; split; [by intros ?|by intros [_ ?]]].
  split; [done|]. by intros [? _].
Qed.

Lemma countChanges_zero original modified :
  countChanges original modified = 0 ↔ original = modified.
Proof.
  unfold countChanges. rewrite filter_length_zero, Forall_forall. split.
  - intros Hsame. apply split_lines_inj, list_eq. intros i.
    destruct (decide (i < length (split_lines original) `max`
                          length (split_lines modified))) as [Hlt|Hge].
    + destruct (decide (split_lines original !! i = split_lines modified !! i))
        as [?|Hne]; [done|].
      destruct (Hsame i); [|done]. apply elem_of_seq. lia.
    + rewrite !(lookup_ge_None_2 _ i) by lia. done.
  - intros -> i _ Hne. by apply Hne.
Qed.

(** X9. [countChanges] is zero exactly when the two texts are equal, so a
    file reported as changed always has a positive count; it does not
    depend on which text is given first, and it is at most the number of
    lines of the longer text. Splitting a text at its line feeds loses
    nothing: joining the lines gives the text back. *)
Theorem countChanges_zero_iff_equal original modified :
  (countChanges original modified = 0 ↔ original = modified)
  ∧ countChanges original modified = countChanges modified original
  ∧ countChanges original modified
    ≤ length (split_lines original) `max` length (split_lines modified)
  ∧ join_lines (split_lines original) = original.
Proof.
  split; [apply countChanges_zero|]. split; [|split; [|apply join_split_lines]].
  - unfold countChanges. rewrite Nat.max_comm.
    f_equal. apply list_filter_iff. intros i. split; intros Hne Heq; by apply Hne.
  - unfold countChanges. etrans; [apply length_filter|]. by rewrite length_seq.
Qed.

(** ** The batch driver: per-file outcomes, the loop and the report *)

Section CliMore.
Context {host : Host} {service : LanguageService} {platform : Platform}.

(** X10. The outcome of [processFile]: the result names the file; it is
    [unchanged] exactly when the file can be read and canonicalizing its
    text returns the same text; a [changed] result has a positive
    [editCount] and no message, every other result has [editCount] zero; a
    result carries a message exactly when its status is [error]; and the
    file system is touched only in write mode, by one [writeFile] of a
    canonical text that differs from the text read. *)
Theorem processFile_outcomes fs path designSystem args :
  let result := (processFile fs path designSystem args).1 in
  let fs' := (processFile fs path designSystem args).2 in
  filePath result = path
  ∧ (status result = unchanged ↔
     ∃ text, readFile fs path = Returned text
             ∧ canonicalizeDocument text path designSystem (rootDir args)
                 (Some (rootFontSize args)) = Returned text)
  ∧ (status result = changed → 1 ≤ editCount result ∧ message result = None)
  ∧ (status result ≠ changed → editCount result = 0)
  ∧ (status result = error ↔ is_Some (message result))
  ∧ (fs' ≠ fs →
     writeMode args = write
     ∧ ∃ text nextText,
         readFile fs path = Returned text
         ∧ canonicalizeDocument text path designSystem (rootDir args)
             (Some (rootFontSize args)) = Returned nextText
         ∧ nextText ≠ text
         ∧ fs' = (writeFile fs path nextText).1).
Proof.
  intros result fs'. subst result fs'. unfold processFile.
  destruct (readFile fs path) as [text|m] eqn:Hread.
  2: { simpl. split; [done|]. split; [by split; [|intros (? & ? & _)]|].
       split; [done|]. split; [done|]. split; [by split; [eexists|]|done]. }
  destruct (canonicalizeDocument text path designSystem (rootDir args)
              (Some (rootFontSize args))) as [nextText|m] eqn:Hcanon.
  2: { simpl. split; [done|]. split.
       { split; [done|]. intros (t & [= <-] & Ht). congruence. }
       split; [done|]. split; [done|]. split; [by split; [eexists|]|done]. }
  case_bool_decide as Hsame.
  { subst nextText. simpl. split; [done|]. split; [by split; [exists text|]|].
    split; [done|]. split; [done|]. split; [|done].
    split; [done|]. by intros [? ?]. }
  assert (1 ≤ countChanges text nextText) as Hcount.
  { destruct (countChanges text nextText) eqn:Hzero; [|lia].
    apply countChanges_zero in Hzero. congruence. }
  assert (¬ ∃ t, Returned text = Returned t
                 ∧ canonicalizeDocument t path designSystem (rootDir args)
                     (Some (rootFontSize args)) = Returned t) as Hnot.
  { intros (t & [= <-] & Ht). congruence. }
  destruct (writeMode args) eqn:Hmode.
  - destruct (writeFile fs path nextText) as [fs1 [[]|m]] eqn:Hwrite; simpl.
    + split; [done|]. split; [by split|]. split; [done|]. split; [done|].
      split; [by split; [|intros [? ?]]|].
      intros _. split; [done|]. by exists text, nextText; rewrite Hwrite.
    + split; [done|]. split; [by split|]. split; [done|]. split; [done|].
      split; [by split; [eexists|]|].
      intros _. split; [done|]. by exists text, nextText; rewrite Hwrite.
  - simpl. split; [done|]. split; [by split|]. split; [done|]. split; [done|].
    split; [by split; [|intros [? ?]]|done].
Qed.

Lemma processFile_keeps_fs fs path designSystem args :
  writeMode args = check ∨ status (processFile fs path designSystem args).1 = unchanged →
  (processFile fs path designSystem args).2 = fs.
Proof.
  unfold processFile.
  destruct (readFile fs path) as [text|m]; [|done].
  destruct (canonicalizeDocument _ _ _ _ _) as [nextText|m]; [|done].
  case_bool_decide; [done|].
  destruct (writeMode args); [|done].
  intros [?|Hst]; [done|].
  by destruct (writeFile fs path nextText) as [fs1 [[]|m]].
Qed.

Lemma process_loop_acc designSystem args paths results fs :
  foldl (process_step designSystem args) (results, fs) paths =
  (results ++ (foldl (process_step designSystem args) ([], fs) paths).1,
   (foldl (process_step designSystem args) ([], fs) paths).2).
Proof.
  revert results fs. induction paths as [|path paths IH]; intros results fs; simpl.
  { by rewrite app_nil_r. }
  destruct (processFile fs path designSystem args) as [result fs1].
  rewrite (IH (results ++ [result])), (IH [result]). simpl.
  by rewrite <- app_assoc.
Qed.

Lemma process_loop_paths designSystem args paths fs :
  filePath <$> (foldl (process_step designSystem args) ([], fs) paths).1 = paths.
Proof.
  revert fs. induction paths as [|path paths IH]; intros fs; simpl; [done|].
  destruct (processFile fs path designSystem args) as [result fs1] eqn:Hp.
  rewrite process_loop_acc. simpl. rewrite IH. f_equal.
  pose proof (processFile_result fs path designSystem args) as [Hpath _].
  by rewrite Hp in Hpath.
Qed.

Lemma process_loop_keeps_fs designSystem args paths fs :
  writeMode args = check
  ∨ Forall (λ r, status r = unchanged)
      (foldl (process_step designSystem args) ([], fs) paths).1 →
  (foldl (process_step designSystem args) ([], fs) paths).2 = fs.
Proof.
  revert fs. induction paths as [|path paths IH]; intros fs; simpl; [done|].
  destruct (processFile fs path designSystem args) as [result fs1] eqn:Hp.
  rewrite process_loop_acc. simpl. intros Hkeep.
  assert (fs1 = fs) as ->.
  { pose proof (processFile_keeps_fs fs path designSystem args) as Hfs.
    rewrite Hp in Hfs. apply Hfs.
    destruct Hkeep as [?|Hall]; [by left|right]. by apply Forall_cons in Hall as [? _]. }
  apply IH. destruct Hkeep as [?|Hall]; [by left|right].
  by apply Forall_cons in Hall as [_ ?].
Qed.

Lemma report_loop_lines args results out :
  foldl (report_step args) out results =
  out ++ match writeMode args with
         | check => LogResult <$> filter (λ r, status r = changed) results
         | write =>
             (λ r, if bool_decide (status r = error) then ErrorResult r else LogResult r)
               <$> results
         end.
Proof.
  revert out. induction results as [|r rs IH]; intros out; simpl.
  { by destruct (writeMode args); rewrite app_nil_r. }
  rewrite IH. unfold report_step. rewrite filter_cons.
  destruct (writeMode args); simpl.
  - case_bool_decide; by rewrite <- app_assoc.
  - destruct (decide (status r = changed)) as [Hst|Hst].
    + rewrite (bool_decide_eq_true_2 _ Hst). simpl.
      rewrite bool_decide_eq_false_2 by (by rewrite Hst).
      by rewrite <- app_assoc.
    + by rewrite (bool_decide_eq_false_2 _ Hst).
Qed.

(** A run that prints the summary has gone through the per-file loop. *)
Lemma main_summary_run fs args summary :
  LogDone summary ∈ console (main fs args) →
  ∃ designSystem,
    resolveTargetFiles fs (targets args) (rootDir args) ≠ []
    ∧ results (main fs args)
      = (foldl (process_step designSystem args) ([], fs)
           (resolveTargetFiles fs (targets args) (rootDir args))).1
    ∧ fs_after (main fs args)
      = (foldl (process_step designSystem args) ([], fs)
           (resolveTargetFiles fs (targets args) (rootDir args))).2
    ∧ console (main fs args)
      = report_lines args (results (main fs args))
          ++ [LogDone (summarizeResults (results (main fs args)))].
Proof.
  unfold main.
  destruct (help args || bool_decide (length (targets args) = 0)).
  { simpl. by intros [=]%list_elem_of_singleton. }
  case_bool_decide as Hres.
  { simpl. by intros [=]%list_elem_of_singleton. }
  destruct (awaitDesignSystem fs (rootDir args) (cssPath args)) as [[[[canon|] invalid]|]|m];
    try (simpl; by intros [=]%list_elem_of_singleton).
  intros _. exists (mkDesignSystem (Some canon) invalid).
  destruct (foldl _ _ _) as [rs fs1] eqn:Hloop. simpl.
  split; [by intros Hnil; rewrite Hnil in Hres|].
  split; [done|]. split; [done|]. f_equal.
  unfold report_lines. rewrite report_loop_lines. simpl.
  destruct (writeMode args), (verbose args); simpl; try done.
Qed.

(** X11. In a run that reaches the summary the per-file loop gives exactly
    one result per resolved target, in the order of the targets: a file
    that fails does not end the loop, no file is processed twice, and the
    counts [changed], [unchanged] and [errors] of the summary add up to the
    number of resolved targets, which is not zero. *)
Theorem main_one_result_per_target fs args summary :
  LogDone summary ∈ console (main fs args) →
  filePath <$> results (main fs args)
  = resolveTargetFiles fs (targets args) (rootDir args)
  ∧ NoDup (filePath <$> results (main fs args))
  ∧ sum_changed summary + sum_unchanged summary + sum_errors summary
    = length (resolveTargetFiles fs (targets args) (rootDir args))
  ∧ 0 < length (results (main fs args)).
Proof.
  intros Hdone.
  destruct (main_summary_run fs args summary Hdone) as (ds & Hne & Hres & _ & _).
  assert (filePath <$> results (main fs args)
          = resolveTargetFiles fs (targets args) (rootDir args)) as Hpaths.
  { rewrite Hres. apply process_loop_paths. }
  split; [done|]. split; [|split].
  - rewrite Hpaths, resolveTargetFiles_first_occurrences.
    apply first_occurrences_spec.
  - apply main_summary in Hdone as [-> _].
    rewrite <- Hpaths, length_fmap, <- (count_status_total (results (main fs args))).
    rewrite summarizeResults_counts. simpl.
    assert (count_status skipped (results (main fs args)) = 0) as ->; [|lia].
    apply count_status_zero. intros r Hr. by apply main_results in Hr as [_ ?].
  - destruct (results (main fs args)); simpl in *; [|lia].
    by rewrite <- Hpaths in Hne.
Qed.

(** X12. A run in check mode never writes: whatever its arguments and
    results, the file system after the run is the file system before it.
    In either mode, a run all of whose results are [unchanged], and a run
    that stops before the per-file loop, leave the file system as it
    was. *)
Theorem check_mode_never_writes fs args :
  (writeMode args = check → fs_after (main fs args) = fs)
  ∧ (Forall (λ r, status r = unchanged) (results (main fs args)) →
     fs_after (main fs args) = fs)
  ∧ ((∀ summary, LogDone summary ∉ console (main fs args)) →
     fs_after (main fs args) = fs).
Proof.
  destruct (main_cases fs args) as
    [(code & ev & -> & _)|(designSystem & rs & fs' & report & Hloop & _ & ->)]; simpl.
  { done. }
  pose proof (process_loop_keeps_fs designSystem args
                (resolveTargetFiles fs (targets args) (rootDir args)) fs) as Hkeep.
  rewrite Hloop in Hkeep. simpl in Hkeep.
  split; [by intros ?; apply Hkeep; left|]. split; [by intros ?; apply Hkeep; right|].
  intros Hnone. destruct (Hnone (summarizeResults rs)).
  apply elem_of_app. right. by left.
Qed.

(** X13. What a run that reaches the summary prints: in check mode, one
    line for each [changed] result and for no other, so a file that fails
    is counted in the summary but not listed; in write mode, nothing but
    the summary unless the run is verbose, and then one line per result in
    the order of the targets, on the error stream for the results of status
    [error]; the summary line comes last. *)
Theorem main_report_lines fs args summary :
  LogDone summary ∈ console (main fs args) →
  console (main fs args)
  = report_lines args (results (main fs args)) ++ [LogDone summary]
  ∧ summary = summarizeResults (results (main fs args))
  ∧ (writeMode args = check →
     ∀ r, (ErrorResult r ∉ console (main fs args))
          ∧ (LogResult r ∈ console (main fs args) ↔
             r ∈ results (main fs args) ∧ status r = changed)).
Proof.
  intros Hdone.
  destruct (main_summary_run fs args summary Hdone) as (ds & _ & _ & _ & Hconsole).
  pose proof (main_summary fs args summary Hdone) as [Hsum _].
  split; [by rewrite Hsum|]. split; [done|].
  intros Hcheck r. rewrite Hconsole. unfold report_lines. rewrite Hcheck.
  rewrite !elem_of_app, !list_elem_of_singleton, !list_elem_of_fmap. split.
  - intros [(r' & ? & _)|?]; done.
  - split.
    + intros [(r' & [= <-] & Hr)|?]; [|done]. by apply list_elem_of_filter in Hr as [? ?].
    + intros [? ?]. left. exists r. split; [done|]. by apply list_elem_of_filter.
Qed.
End CliMore.

Module MoreRuns.
Import Fixtures MoreFixtures.

Lemma main_one_result_per_target_witness :
  LogDone (mkSummary 1 1 0 1)
    ∈ console (batch (Some a_design_system) ["page.html"; "old.html"; "locked.html"])
  ∧ filePath <$> results (batch (Some a_design_system)
                            ["page.html"; "old.html"; "locked.html"])
    = resolveTargetFiles (host := posix_host)
        (platform := memory_platform (Some a_design_system))
        project ["page.html"; "old.html"; "locked.html"] "/app".
Proof.
  assert (LogDone (mkSummary 1 1 0 1)
            ∈ console (batch (Some a_design_system) ["page.html"; "old.html"; "locked.html"]))
    as Hdone by (apply (bool_decide_unpack _); by vm_compute).
  split; [exact Hdone|].
  exact (proj1 (main_one_result_per_target
                  (host := posix_host) (service := scripted_service spacing_analyzer)
                  (platform := memory_platform (Some a_design_system))
                  project (args_for ["page.html"; "old.html"; "locked.html"])
                  (mkSummary 1 1 0 1) Hdone)).
Defined.

Lemma main_report_lines_witness :
  LogDone (mkSummary 1 1 0 1)
    ∈ console (main (host := posix_host) (service := scripted_service spacing_analyzer)
                 (platform := memory_platform (Some a_design_system))
                 project (check_args_for ["page.html"; "old.html"; "locked.html"]))
  ∧ console (main (host := posix_host) (service := scripted_service spacing_analyzer)
               (platform := memory_platform (Some a_design_system))
               project (check_args_for ["page.html"; "old.html"; "locked.html"]))
    = report_lines (check_args_for ["page.html"; "old.html"; "locked.html"])
        (results (main (host := posix_host) (service := scripted_service spacing_analyzer)
                    (platform := memory_platform (Some a_design_system))
                    project (check_args_for ["page.html"; "old.html"; "locked.html"])))
      ++ [LogDone (mkSummary 1 1 0 1)].
Proof.
  assert (LogDone (mkSummary 1 1 0 1)
            ∈ console (main (host := posix_host)
                         (service := scripted_service spacing_analyzer)
                         (platform := memory_platform (Some a_design_system))
                         project (check_args_for ["page.html"; "old.html"; "locked.html"])))
    as Hdone by (apply (bool_decide_unpack _); by vm_compute).
  split; [exact Hdone|].
  exact (proj1 (main_report_lines
                  (host := posix_host) (service := scripted_service spacing_analyzer)
                  (platform := memory_platform (Some a_design_system))
                  project (check_args_for ["page.html"; "old.html"; "locked.html"])
                  (mkSummary 1 1 0 1) Hdone)).
Defined.

(** The run of the batch driver on [project] in check mode lists the one
    file it would change, counts the file it cannot read, and writes
    nothing. *)
Example check_run :
  console (main (host := posix_host) (service := scripted_service spacing_analyzer)
             (platform := memory_platform (Some a_design_system))
             project (check_args_for ["page.html"; "old.html"; "locked.html"]))
  = [LogResult (mkFileResult "/app/old.html" changed 1 None); LogDone (mkSummary 1 1 0 1)]
  ∧ fs_after (main (host := posix_host) (service := scripted_service spacing_analyzer)
                (platform := memory_platform (Some a_design_system))
                project (check_args_for ["page.html"; "old.html"; "locked.html"]))
    = project
  ∧ exitCode (main (host := posix_host) (service := scripted_service spacing_analyzer)
                (platform := memory_platform (Some a_design_system))
                project (check_args_for ["page.html"; "old.html"; "locked.html"]))
    = EXIT_FAILURE.
Proof. repeat split; by vm_compute. Qed.

End MoreRuns.

(** ** The design-system cache over the life of a process *)

Section CacheMore.
Context {host : Host}.

Lemma fresh_process_consistent : cache_consistent fresh_process.
Proof. intros key p Hkey. simpl in Hkey. by rewrite lookup_empty in Hkey. Qed.

Lemma getDesignSystem_consistent st rootDir cssPath :
  cache_consistent st → cache_consistent (getDesignSystem st rootDir cssPath).2.
Proof.
  intros Hst.
  destruct (designSystemCache st !! cache_key rootDir cssPath) as [p|] eqn:Hkey.
  { by rewrite (getDesignSystem_hit _ _ _ _ Hkey). }
  rewrite (getDesignSystem_miss _ _ _ Hkey). simpl.
  intros key p. simpl.
  destruct (decide (key = cache_key rootDir cssPath)) as [->|Hne].
  - rewrite lookup_insert_eq. intros [= <-]. exists (rootDir, cssPath).
    split; [|done]. by rewrite list_lookup_middle.
  - rewrite lookup_insert_ne by done. intros (call & Hcall & Hk)%Hst.
    exists call. split; [|done]. by apply lookup_app_l_Some.
Qed.

Lemma run_event_consistent st ev :
  cache_consistent st → cache_consistent (run_event st ev).
Proof.
  intros Hst. destruct ev as [rootDir cssPath| |p]; simpl.
  - by apply getDesignSystem_consistent.
  - intros key p Hkey. simpl in Hkey. by rewrite lookup_empty in Hkey.
  - exact Hst.
Qed.

Lemma run_events_consistent events st :
  cache_consistent st → cache_consistent (foldl run_event st events).
Proof.
  revert st. induction events as [|ev events IH]; intros st Hst; simpl; [done|].
  by apply IH, run_event_consistent.
Qed.

Lemma getDesignSystem_cached st rootDir cssPath :
  designSystemCache (getDesignSystem st rootDir cssPath).2 !! cache_key rootDir cssPath
  = Some (getDesignSystem st rootDir cssPath).1.
Proof.
  destruct (designSystemCache st !! cache_key rootDir cssPath) as [p|] eqn:Hkey.
  - by rewrite (getDesignSystem_hit _ _ _ _ Hkey).
  - rewrite (getDesignSystem_miss _ _ _ Hkey). simpl. by rewrite lookup_insert_eq.
Qed.

(** X14. In every state a process can reach from its start by calls of
    [getDesignSystem] and [clearDesignSystemCache] and by promises settling,
    the promise [getDesignSystem] returns is the promise of a load that was
    started for the cache key of this very call, and it is the promise the
    cache now holds for that key; no promise is cached under two keys, so a
    caller never receives the design system of another root or
    stylesheet. *)
Theorem getDesignSystem_returns_own_load events rootDir cssPath :
  let st := foldl run_event fresh_process events in
  let call := getDesignSystem st rootDir cssPath in
  designSystemCache call.2 !! cache_key rootDir cssPath = Some call.1
  ∧ (∃ load, loadsStarted call.2 !! call.1 = Some load
             ∧ cache_key load.1 load.2 = cache_key rootDir cssPath)
  ∧ cache_consistent call.2
  ∧ (∀ key key' promise,
       designSystemCache call.2 !! key = Some promise →
       designSystemCache call.2 !! key' = Some promise → key = key').
Proof.
  intros st call.
  assert (cache_consistent call.2) as Hcons.
  { apply getDesignSystem_consistent, run_events_consistent, fresh_process_consistent. }
  pose proof (getDesignSystem_cached st rootDir cssPath) as Hcached. fold call in Hcached.
  split; [done|]. split; [by apply Hcons|]. split; [done|].
  intros key key' promise (load & Hload & <-)%Hcons (load' & Hload' & <-)%Hcons.
  congruence.
Qed.

(** X15. After [clearDesignSystemCache], the next [getDesignSystem] starts
    a new load whatever was cached before: it returns a promise that no
    earlier call has returned, the loads started earlier and the promises
    settled so far are kept as they are, and the cache then holds this one
    key only. *)
Theorem clearDesignSystemCache_forces_reload events rootDir cssPath :
  let st := foldl run_event fresh_process events in
  let call := getDesignSystem (clearDesignSystemCache st) rootDir cssPath in
  call.1 = length (loadsStarted st)
  ∧ loadsStarted call.2 = loadsStarted st ++ [(rootDir, cssPath)]
  ∧ settledPromises call.2 = settledPromises st
  ∧ designSystemCache call.2 = {[cache_key rootDir cssPath := call.1]}
  ∧ (∀ key promise, designSystemCache st !! key = Some promise → promise ≠ call.1).
Proof.
  intros st call. subst call.
  rewrite getDesignSystem_miss by (simpl; apply lookup_empty). simpl.
  split; [done|]. split; [done|]. split; [done|]. split; [by rewrite insert_empty|].
  intros key promise Hkey.
  assert (cache_consistent st) as Hcons
    by apply run_events_consistent, fresh_process_consistent.
  destruct (Hcons key promise Hkey) as (load & Hload & _).
  apply lookup_lt_Some in Hload. lia.
Qed.

Lemma default_key_inj rootDir rootDir' :
  "default:" +:+ rootDir = "default:" +:+ rootDir' → rootDir = rootDir'.
Proof.
  rewrite !JsStringFacts.app_cons, !JsStringFacts.app_empty_l. by intros [=].
Qed.

(** X16. The cache key: a stylesheet path given as the empty string names
    the same design system as no path at all; without a stylesheet, two
    roots share a design system only if they are the same string; with a
    stylesheet the key is the resolved path, so two spellings of one resolved
    path lead to one load, the second call receiving the promise of the
    first. *)
Theorem cache_key_identifies_design_system st rootDir rootDir' :
  cache_key rootDir (Some "") = cache_key rootDir None
  ∧ (cache_key rootDir None = cache_key rootDir' None → rootDir = rootDir')
  ∧ (∀ p p', p ≠ "" → p' ≠ "" →
             (cache_key rootDir (Some p) = cache_key rootDir' (Some p')
              ↔ path_resolve rootDir p = path_resolve rootDir' p'))
  ∧ (∀ cssPath cssPath',
       cache_key rootDir cssPath = cache_key rootDir' cssPath' →
       getDesignSystem (getDesignSystem st rootDir cssPath).2 rootDir' cssPath'
       = getDesignSystem st rootDir cssPath).
Proof.
  split; [done|]. split; [apply default_key_inj|]. split.
  - intros p p' Hp Hp'. unfold cache_key.
    by rewrite !bool_decide_eq_false_2 by done.
  - intros cssPath cssPath' Hkey.
    pose proof (getDesignSystem_cached st rootDir cssPath) as Hcached.
    rewrite Hkey in Hcached.
    rewrite (getDesignSystem_hit _ _ _ _ Hcached). by destruct (getDesignSystem _ _ _).
Qed.
End CacheMore.

(** ** Stylesheet and module resolution *)

Lemma mapTailwindCssAlias_idemp id :
  mapTailwindCssAlias (mapTailwindCssAlias id) = mapTailwindCssAlias id.
Proof.
  unfold mapTailwindCssAlias at 2.
  repeat case_bool_decide; subst; try (by vm_compute).
Qed.

Section LoaderFacts.
Context {host : Host} {paths : NodePath} {platform : Platform} {loader : ModuleLoader}.

(** X17. [resolveModulePath] decides absolute ids and ids that start with a
    dot without looking at the file system: they resolve even when no such
    file exists. It returns [null] only for a bare id that Node's resolver
    rejects and that is no file below [node_modules] of the base directory;
    whatever it returns is the id, its resolution against the base
    directory, the resolver's answer or that [node_modules] path. *)
Theorem resolveModulePath_cases fs id baseDir :
  (path_isAbsolute id = true → ∀ fs', resolveModulePath fs' id baseDir = Some id)
  ∧ (path_isAbsolute id = false → startsWith_dot id = true →
     ∀ fs', resolveModulePath fs' id baseDir = Some (path_resolve baseDir id))
  ∧ (resolveModulePath fs id baseDir = None ↔
     path_isAbsolute id = false ∧ startsWith_dot id = false
     ∧ (∃ m, require_resolve fs id baseDir = Thrown m)
     ∧ fileExists fs (path_join [baseDir; "node_modules"; id]) = false)
  ∧ (∀ resolved,
       resolveModulePath fs id baseDir = Some resolved →
       resolved = id ∨ resolved = path_resolve baseDir id
       ∨ require_resolve fs id baseDir = Returned resolved
       ∨ (resolved = path_join [baseDir; "node_modules"; id]
          ∧ stat_isFile fs resolved = Returned true)).
Proof.
  unfold resolveModulePath.
  split; [by intros ->|]. split; [by intros -> ->|].
  destruct (path_isAbsolute id).
  { split; [by split; [|intros [? _]]|]. intros ? [= <-]. by left. }
  destruct (startsWith_dot id).
  { split; [by split; [|intros (_ & ? & _)]|]. intros ? [= <-]. right. by left. }
  destruct (require_resolve fs id baseDir) as [resolved|m].
  { split; [by split; [|intros (_ & _ & [? ?] & _)]|].
    intros ? [= <-]. right. right. by left. }
  unfold fileExists.
  destruct (stat_isFile fs (path_join [baseDir; "node_modules"; id])) as [[]|m'] eqn:Hstat.
  - split; [by split; [|intros (_ & _ & _ & ?)]|].
    intros ? [= <-]. right. right. right. done.
  - split; [|done]. split; [|done]. intros _. split; [done|]. split; [done|].
    split; [by exists m|done].
  - split; [|done]. split; [|done]. intros _. split; [done|]. split; [done|].
    split; [by exists m|done].
Qed.

Lemma loadStylesheet_resolved fs id base resolved :
  resolveStylesheetPath fs id base = Some resolved → resolved ≠ "" →
  loadStylesheet fs id base
  = (content ← readFile fs resolved; mret (path_dirname resolved, content)).
Proof.
  intros Hres Hne. unfold loadStylesheet. rewrite Hres. simpl.
  by destruct resolved.
Qed.

(** X18. The stylesheet callback: an alias of Tailwind is loaded like the
    file it stands for; a stylesheet that resolves is read, and its
    directory becomes the base of its own imports; a stylesheet that does
    not resolve is an empty stylesheet with the base unchanged, without any
    read; but an import that starts with a dot always resolves, so when
    its file cannot be read the load is rejected with the error of the
    read. *)
Theorem loadStylesheet_cases fs id base :
  loadStylesheet fs (mapTailwindCssAlias id) base = loadStylesheet fs id base
  ∧ loadStylesheet fs "tailwindcss" base = loadStylesheet fs "tailwindcss/index.css" base
  ∧ (resolveStylesheetPath fs id base = None →
     loadStylesheet fs id base = Returned (base, ""))
  ∧ (∀ resolved content,
       resolveStylesheetPath fs id base = Some resolved → resolved ≠ "" →
       readFile fs resolved = Returned content →
       loadStylesheet fs id base = Returned (path_dirname resolved, content))
  ∧ (∀ m,
       path_isAbsolute (mapTailwindCssAlias id) = false →
       startsWith_dot (mapTailwindCssAlias id) = true →
       path_resolve base (mapTailwindCssAlias id) ≠ "" →
       readFile fs (path_resolve base (mapTailwindCssAlias id)) = Thrown m →
       loadStylesheet fs id base = Thrown m).
Proof.
  split; [|split; [|split; [|split]]].
  - unfold loadStylesheet, resolveStylesheetPath. by rewrite mapTailwindCssAlias_idemp.
  - done.
  - intros Hres. unfold loadStylesheet. by rewrite Hres.
  - intros resolved content Hres Hne Hread.
    rewrite (loadStylesheet_resolved _ _ _ _ Hres Hne). by rewrite Hread.
  - intros m Habs Hdot Hne Hread.
    rewrite (loadStylesheet_resolved fs id base (path_resolve base (mapTailwindCssAlias id)));
      [by rewrite Hread| |done].
    unfold resolveStylesheetPath, resolveModulePath. by rewrite Habs, Hdot.
Qed.

(** X19. The module callbacks never fail for want of a module: an id that
    does not resolve gives the no-op plugin to [loadPlugin] and to
    [loadModule] asked for a plugin, and the empty object to [loadConfig] and
    to [loadModule] asked for anything else, with the base unchanged. In
    every case [loadPlugin] and [loadConfig] return the module [loadModule]
    returns from the base of the CSS entry file, for the resource types
    [plugin] and [config]. *)
Theorem module_callbacks_fall_back fs cssBase id :
  loadPlugin fs cssBase id = (loaded ← loadModule fs id cssBase "plugin"; mret loaded.2)
  ∧ loadConfig fs cssBase id = (loaded ← loadModule fs id cssBase "config"; mret loaded.2)
  ∧ (resolveModulePath fs id cssBase = None →
     loadPlugin fs cssBase id = Returned noop_plugin
     ∧ loadConfig fs cssBase id = Returned empty_object
     ∧ loadModule fs id cssBase "plugin" = Returned (cssBase, noop_plugin)
     ∧ ∀ resourceType, resourceType ≠ "plugin" →
         loadModule fs id cssBase resourceType = Returned (cssBase, empty_object)).
Proof.
  unfold loadPlugin, loadConfig, loadModule, fallbackModule.
  split; [|split].
  - destruct (is_falsy _); [done|]. simpl. by destruct (jiti_import _ _).
  - destruct (is_falsy _); [done|]. simpl. by destruct (jiti_import _ _).
  - intros ->. simpl. split; [done|]. split; [done|]. split; [done|].
    intros resourceType Hne. by rewrite bool_decide_eq_false_2.
Qed.
End LoaderFacts.

Module LoaderRuns.
Import Fixtures MoreFixtures.

Lemma loadStylesheet_cases_witness :
  loadStylesheet (host := posix_host) (paths := posix_paths)
    (loader := memory_loader None) project "./theme.css" "/app"
  = Thrown "ENOENT".
Proof.
  apply (proj2 (proj2 (proj2 (proj2
    (loadStylesheet_cases (host := posix_host) (paths := posix_paths)
       (loader := memory_loader None) project "./theme.css" "/app"))))).
  - reflexivity.
  - reflexivity.
  - discriminate.
  - reflexivity.
Defined.

(** On the project in memory: a missing relative stylesheet rejects the
    load, a missing package gives the empty stylesheet, and a file below
    [node_modules] is found by the fallback of [resolveModulePath]. *)
Example stylesheet_loads :
  loadStylesheet (host := posix_host) (paths := posix_paths)
    (loader := memory_loader None) project "./theme.css" "/app"
  = Thrown "ENOENT"
  ∧ loadStylesheet (host := posix_host) (paths := posix_paths)
      (loader := memory_loader None) project "tailwindcss" "/app"
    = Returned ("/app", "")
  ∧ loadStylesheet (host := posix_host) (paths := posix_paths)
      (loader := memory_loader None)
      (<["/app/node_modules/tailwindcss/index.css" := Some "@layer theme;"]> project)
      "tailwindcss" "/app"
    = Returned ("/app/node_modules/tailwindcss", "@layer theme;")
  ∧ loadPlugin (host := posix_host) (paths := posix_paths)
      (loader := memory_loader None) project "/app" "missing-plugin"
    = Returned "() => {}".
Proof. repeat split; by vm_compute. Qed.

End LoaderRuns.

(** ** The Prettier plugin *)

Lemma language_of_extension_not_empty ext : language_of_extension ext ≠ Some "".
Proof. unfold language_of_extension. repeat case_bool_decide; done. Qed.

Lemma is_falsy_inferLanguageId {host : Host} filePath :
  is_falsy (inferLanguageId filePath) = true ↔ inferLanguageId filePath = None.
Proof.
  pose proof (language_of_extension_not_empty (toLowerCase (extname filePath))) as Hne.
  unfold inferLanguageId in *.
  destruct (language_of_extension _) as [[|c s]|]; simpl; split; try done.
Qed.

Lemma getDesignSystem_again {host : Host} st rootDir cssPath :
  getDesignSystem (getDesignSystem st rootDir cssPath).2 rootDir cssPath
  = getDesignSystem st rootDir cssPath.
Proof.
  rewrite (getDesignSystem_hit _ _ _ _ (getDesignSystem_cached st rootDir cssPath)).
  by destruct (getDesignSystem _ _ _).
Qed.

Lemma getDesignSystem_loads {host : Host} st rootDir cssPath :
  length (loadsStarted (getDesignSystem st rootDir cssPath).2)
  ≤ length (loadsStarted st) + 1.
Proof.
  destruct (designSystemCache st !! cache_key rootDir cssPath) as [p|] eqn:Hkey.
  - rewrite (getDesignSystem_hit _ _ _ _ Hkey). simpl. lia.
  - rewrite (getDesignSystem_miss _ _ _ Hkey). simpl. rewrite length_app. simpl. lia.
Qed.

Section PluginFacts.
Context {host : Host} {service : LanguageService} {runtime : Runtime}.

Lemma createPreprocess_state parserName st text opts :
  (Plugin.createPreprocess parserName st text opts).2
  = if is_falsy (inferLanguageId (Plugin.file_path_of parserName opts)) then st
    else (getDesignSystem st cwd (canonicalStylesheet opts)).2.
Proof.
  unfold Plugin.createPreprocess.
  destruct (is_falsy _); [done|].
  destruct (getDesignSystem st cwd (canonicalStylesheet opts)) as [promise st1].
  simpl. destruct (settled promise) as [ds|m]; simpl; [|done].
  by destruct (canonicalizeDocument _ _ _ _ _).
Qed.

(** X20. The preprocess function of the plugin never fails and never
    returns anything but the text it was given or its canonical form: for a
    file whose language is not supported it returns the text and touches no
    cache; when the design system cannot be loaded, or when
    canonicalization fails, it returns the text unchanged; and a text it
    does change is the result of [canonicalizeDocument] on it, with the
    working directory as project root and 16 as default root font size. *)
Theorem createPreprocess_fail_safe parserName st text opts :
  let filePath := Plugin.file_path_of parserName opts in
  let promise := (getDesignSystem st cwd (canonicalStylesheet opts)).1 in
  let canonical designSystem :=
    canonicalizeDocument text filePath designSystem cwd
      (Some (default 16 (canonicalRootFontSize opts))) in
  let out := Plugin.createPreprocess parserName st text opts in
  (inferLanguageId filePath = None → out = (text, st))
  ∧ (∀ m, settled promise = Thrown m → out.1 = text)
  ∧ (∀ designSystem m,
       settled promise = Returned designSystem → canonical designSystem = Thrown m →
       out.1 = text)
  ∧ (out.1 ≠ text →
     ∃ designSystem,
       is_Some (inferLanguageId filePath)
       ∧ settled promise = Returned designSystem
       ∧ canonical designSystem = Returned out.1)
  ∧ (is_Some (inferLanguageId filePath) →
     out.2 = (getDesignSystem st cwd (canonicalStylesheet opts)).2).
Proof.
  intros filePath promise canonical out.
  pose proof (is_falsy_inferLanguageId filePath) as Hfalsy.
  subst out promise canonical. unfold Plugin.createPreprocess. fold filePath.
  destruct (inferLanguageId filePath) as [languageId|] eqn:Hlang.
  2: { rewrite (proj2 Hfalsy) by done.
       split; [done|]. split; [done|]. split; [done|]. split; [done|].
       by intros [? ?]. }
  destruct (is_falsy (Some languageId)) eqn:Hf.
  { discriminate (proj1 Hfalsy eq_refl). }
  split; [done|].
  destruct (getDesignSystem st cwd (canonicalStylesheet opts)) as [promise st1]. simpl.
  destruct (settled promise) as [ds|m]; simpl.
  - destruct (canonicalizeDocument text filePath ds cwd
                (Some (default 16 (canonicalRootFontSize opts)))) as [t|m'] eqn:Hcanon; simpl.
    + split; [done|]. split; [by intros ? ? [= <-]; rewrite Hcanon|].
      split; [|done]. intros _. by exists ds.
    + by repeat split.
  - by repeat split.
Qed.

Lemma preprocess_steps_cached st calls css promise :
  designSystemCache st !! cache_key cwd css = Some promise →
  Forall (λ call, canonicalStylesheet call.2 = css) calls →
  foldl Plugin.preprocess_step st calls = st.
Proof.
  intros Hkey Hcalls. induction Hcalls as [|[[parser text] opts] calls Hcss _ IH]; [done|].
  simpl in *. rewrite createPreprocess_state, Hcss.
  rewrite (getDesignSystem_hit _ _ _ _ Hkey). simpl.
  by destruct (is_falsy _).
Qed.

(** X21. However many files Prettier formats in one process with the same
    stylesheet option, the plugin starts the load of the design system at
    most once: after all the calls the loader is in the state it had before
    them (when no file had a supported language) or in the state the first
    [getDesignSystem] of the working directory and the stylesheet left, so at
    most one load has been added. *)
Theorem plugin_loads_design_system_once st calls css :
  Forall (λ call, canonicalStylesheet call.2 = css) calls →
  (foldl Plugin.preprocess_step st calls = st
   ∨ foldl Plugin.preprocess_step st calls = (getDesignSystem st cwd css).2)
  ∧ length (loadsStarted (foldl Plugin.preprocess_step st calls))
    ≤ length (loadsStarted st) + 1.
Proof.
  intros Hcalls.
  assert (foldl Plugin.preprocess_step st calls = st
          ∨ foldl Plugin.preprocess_step st calls = (getDesignSystem st cwd css).2) as Hst.
  { revert st. induction Hcalls as [|[[parser text] opts] calls Hcss Hcalls IH]; intros st.
    { by left. }
    simpl in *. rewrite createPreprocess_state, Hcss.
    destruct (is_falsy _); [apply IH|]. right.
    eapply preprocess_steps_cached; [apply getDesignSystem_cached|done]. }
  split; [done|].
  destruct Hst as [->| ->]; [lia|apply getDesignSystem_loads].
Qed.
End PluginFacts.

Section PreprocessorFacts.
Context {host : Host} {paths : NodePath} {service : LanguageService} {runtime : Runtime}.

Lemma createPreprocessor_state parserName st text options :
  (PluginParsers.createPreprocessor parserName st text options).2
  = if is_falsy (inferLanguageId (PluginParsers.file_path_of parserName options)) then st
    else (getDesignSystem st (PluginParsers.project_root_of options)
            (canonicalStylesheet options)).2.
Proof.
  unfold PluginParsers.createPreprocessor.
  destruct (is_falsy _); [done|].
  destruct (getDesignSystem st _ (canonicalStylesheet options)) as [promise st1].
  simpl. destruct (settled promise) as [ds|m]; simpl; [|done].
  by destruct (canonicalizeDocument _ _ _ _ _).
Qed.

(** X22. The preprocessor of [parsers.ts] takes the directory of the file
    as project root, the working directory for a text without a file path:
    formatting two files of supported languages that lie in different
    directories, without a stylesheet option and with nothing cached for
    their directories, starts one load of the default design system per
    directory. *)
Theorem createPreprocessor_loads_per_directory
    st parser1 text1 path1 size1 parser2 text2 path2 size2 :
  let options1 := mkPluginOptions (Some path1) None size1 in
  let options2 := mkPluginOptions (Some path2) None size2 in
  let st1 := (PluginParsers.createPreprocessor parser1 st text1 options1).2 in
  let st2 := (PluginParsers.createPreprocessor parser2 st1 text2 options2).2 in
  path1 ≠ "" → path2 ≠ "" →
  is_Some (inferLanguageId path1) → is_Some (inferLanguageId path2) →
  path_dirname path1 ≠ path_dirname path2 →
  designSystemCache st !! cache_key (path_dirname path1) None = None →
  designSystemCache st !! cache_key (path_dirname path2) None = None →
  loadsStarted st2
  = loadsStarted st ++ [(path_dirname path1, None); (path_dirname path2, None)]
  ∧ PluginParsers.project_root_of (mkPluginOptions None None size1) = cwd.
Proof.
  intros options1 options2 st1 st2 Hp1 Hp2 Hl1 Hl2 Hdirs Hk1 Hk2.
  split; [|done]. subst st2 st1. rewrite !createPreprocessor_state.
  assert (∀ p, is_Some (inferLanguageId p) → is_falsy (inferLanguageId p) = false) as Hsup.
  { intros p [l Hl]. destruct (is_falsy (inferLanguageId p)) eqn:Hf; [|done].
    apply is_falsy_inferLanguageId in Hf. congruence. }
  assert (∀ p, p ≠ "" → is_falsy (Some p) = false) as Hne by (by intros [|? ?]).
  unfold PluginParsers.file_path_of, PluginParsers.project_root_of.
  subst options1 options2.
  cbn [filepath canonicalStylesheet default from_option].
  rewrite !Hsup, !Hne by done.
  unfold id. rewrite (getDesignSystem_miss _ _ _ Hk1).
  rewrite getDesignSystem_miss; simpl.
  - by rewrite <- app_assoc.
  - rewrite lookup_insert_ne; [done|]. by intros ?%default_key_inj.
Qed.
End PreprocessorFacts.

(** X23. The virtual file names: every parser the plugin registers, and
    every parser of its extension table, has an extension whose language
    the canonicalizer supports, while the extension [.txt] of an unknown
    parser has none, so a text without a file path is canonicalized exactly
    when its parser is known. In the table of [parsers.ts] the parsers with
    a supported extension are exactly those of [SUPPORTED_PARSERS]: the
    entries for marko, pug, liquid, twig and glimmer name extensions the
    canonicalizer does not support. *)
Theorem parser_extensions_supported :
  (∀ parser, parser ∈ Plugin.PARSER_CONFIG →
             ∃ ext, Plugin.PARSER_EXTENSION_MAP !! parser = Some ext
                    ∧ is_Some (language_of_extension ext))
  ∧ (∀ parser ext, Plugin.PARSER_EXTENSION_MAP !! parser = Some ext →
                   is_Some (language_of_extension ext))
  ∧ language_of_extension ".txt" = None
  ∧ (∀ parser ext, PluginParsers.PARSER_EXTENSION_MAP !! parser = Some ext →
                   (is_Some (language_of_extension ext)
                    ↔ parser ∈ PluginParsers.SUPPORTED_PARSERS))
  ∧ (∀ parser, parser ∈ PluginParsers.SUPPORTED_PARSERS →
               PluginParsers.PARSER_EXTENSION_MAP !! parser
               = Plugin.PARSER_EXTENSION_MAP !! parser
               ∧ is_Some (Plugin.PARSER_EXTENSION_MAP !! parser)).
Proof.
  split; [|split; [|split; [done|split]]].
  - intros parser Hin. unfold Plugin.PARSER_CONFIG in Hin.
    repeat (apply elem_of_cons in Hin as [->|Hin]);
      try (by apply elem_of_nil in Hin);
      (eexists; split; [vm_compute; reflexivity|vm_compute; by eexists]).
  - refine (bool_decide_unpack
              (map_Forall (λ _ ext, is_Some (language_of_extension ext))
                 Plugin.PARSER_EXTENSION_MAP) _).
    by vm_compute.
  - refine (bool_decide_unpack
              (map_Forall (λ parser ext,
                             is_Some (language_of_extension ext)
                             ↔ parser ∈ PluginParsers.SUPPORTED_PARSERS)
                 PluginParsers.PARSER_EXTENSION_MAP) _).
    by vm_compute.
  - apply Forall_forall. apply (bool_decide_unpack _). by vm_compute.
Qed.

Module PluginRuns.
Import Fixtures MoreFixtures.

Lemma plugin_loads_design_system_once_witness :
  length (loadsStarted
            (foldl (Plugin.preprocess_step (host := posix_host)
                      (service := scripted_service spacing_analyzer)
                      (runtime := app_runtime))
               fresh_process
               [("html", "p-[8px] m-1", mkPluginOptions (Some "/app/a/page.html") None None);
                ("css", "p-2", mkPluginOptions None None (Some 10));
                ("babel", "p-[8px]", mkPluginOptions (Some "/app/b/page.jsx") None None)]))
  ≤ length (loadsStarted fresh_process) + 1.
Proof.
  apply (plugin_loads_design_system_once (host := posix_host)
           (service := scripted_service spacing_analyzer) (runtime := app_runtime)
           fresh_process _ None).
  repeat constructor.
Defined.

Lemma createPreprocessor_loads_per_directory_witness :
  loadsStarted
    (PluginParsers.createPreprocessor (host := posix_host) (paths := posix_paths)
       (service := scripted_service spacing_analyzer) (runtime := app_runtime)
       "babel"
       (PluginParsers.createPreprocessor (host := posix_host) (paths := posix_paths)
          (service := scripted_service spacing_analyzer) (runtime := app_runtime)
          "html" fresh_process "p-[8px] m-1"
          (mkPluginOptions (Some "/app/a/page.html") None None)).2
       "p-[8px]" (mkPluginOptions (Some "/app/b/page.jsx") None None)).2
  = loadsStarted fresh_process ++ [("/app/a", None); ("/app/b", None)].
Proof.
  apply (createPreprocessor_loads_per_directory (host := posix_host)
           (paths := posix_paths) (service := scripted_service spacing_analyzer)
           (runtime := app_runtime)
           fresh_process "html" "p-[8px] m-1" "/app/a/page.html" None
           "babel" "p-[8px]" "/app/b/page.jsx" None); done.
Defined.

(** The plugin on two files and a text without a path, in one process: the
    texts it can canonicalize are changed, a text of an unknown parser and a
    text whose design system fails to load come back as they were. *)
Example plugin_run :
  (Plugin.createPreprocess (host := posix_host)
     (service := scripted_service spacing_analyzer) (runtime := app_runtime)
     "html" fresh_process "p-[8px] m-1"
     (mkPluginOptions (Some "/app/a/page.html") None None)).1 = "p-2 m-1"
  ∧ (Plugin.createPreprocess (host := posix_host)
       (service := scripted_service spacing_analyzer) (runtime := app_runtime)
       "babel" fresh_process "p-[8px] m-1" (mkPluginOptions None None None)).1 = "p-2 m-1"
  ∧ (Plugin.createPreprocess (host := posix_host)
       (service := scripted_service spacing_analyzer) (runtime := app_runtime)
       "yaml" fresh_process "p-[8px] m-1" (mkPluginOptions None None None))
    = ("p-[8px] m-1", fresh_process)
  ∧ (Plugin.createPreprocess (host := posix_host)
       (service := scripted_service spacing_analyzer) (runtime := failing_runtime)
       "html" fresh_process "p-[8px] m-1" (mkPluginOptions None None None)).1
    = "p-[8px] m-1"
  ∧ (Plugin.createPreprocess (host := posix_host)
       (service := scripted_service failing_analyzer) (runtime := app_runtime)
       "html" fresh_process "p-[8px] m-1" (mkPluginOptions None None None)).1
    = "p-[8px] m-1".
Proof. repeat split; by vm_compute. Qed.

End PluginRuns.

(** ** The single-file tool and the batch driver *)

Section LegacyFacts.
Context {host : Host} {service : LanguageService} {platform : Platform}.

Lemma isSupportedExtension_language filePath :
  isSupportedExtension filePath = true ↔ is_Some (inferLanguageId filePath).
Proof.
  unfold isSupportedExtension, inferLanguageId.
  rewrite language_of_extension_supported. apply bool_decide_eq_true.
Qed.

(** X24. On a file with a supported extension, [processFile] of the
    single-file tool and [processFile] of the batch driver, run on the same
    design system, root and root font size, agree on the status, the
    message and the file system they leave; they differ in [editCount]
    only, which the single-file tool sets to the number of edits built (at
    least one for a changed file) and the batch driver to the number of
    changed lines. The single-file tool reports [skipped] only for a
    readable file with an unsupported extension, which the batch driver
    reports as [unchanged]; neither touches such a file. *)
Theorem legacy_processFile_agrees fs path designSystem args :
  let state :=
    createLanguageServiceState designSystem (rootDir args)
      (createSettings (rootFontSize args)) in
  let old := Legacy.processFile fs state path (writeMode args) in
  let new := processFile fs path designSystem args in
  filePath old.1 = filePath new.1
  ∧ old.2 = new.2
  ∧ (isSupportedExtension path = true →
     status old.1 = status new.1 ∧ message old.1 = message new.1
     ∧ status old.1 ≠ skipped
     ∧ (status old.1 = changed →
        1 ≤ editCount old.1
        ∧ ∃ languageId text edits,
            inferLanguageId path = Some languageId
            ∧ readFile fs path = Returned text
            ∧ buildCanonicalEdits state (createTextDocument path languageId text)
              = Returned edits
            ∧ editCount old.1 = length edits))
  ∧ (isSupportedExtension path = false →
     old.2 = fs
     ∧ (status old.1 = skipped ↔ status new.1 = unchanged)
     ∧ (status old.1 = skipped ↔ ∃ text, readFile fs path = Returned text)
     ∧ (status old.1 = error ↔ status new.1 = error)).
Proof.
  intros state old new. subst old new.
  pose proof (isSupportedExtension_language path) as Hsup.
  pose proof (is_falsy_inferLanguageId path) as Hfalsy.
  unfold Legacy.processFile, processFile, canonicalizeDocument.
  change (default DEFAULT_ROOT_FONT_SIZE (Some (rootFontSize args)))
    with (rootFontSize args). fold state.
  destruct (readFile fs path) as [text|m] eqn:Hread.
  2: { simpl. split; [done|]. split; [done|]. split; [by intros _; repeat split|].
       intros _. split; [done|]. split; [done|].
       split; [by split; [|intros [? ?]]|done]. }
  destruct (inferLanguageId path) as [languageId|] eqn:Hlang.
  2: { rewrite (proj2 Hfalsy) by done. simpl.
       rewrite bool_decide_eq_true_2 by done. simpl.
       split; [done|]. split; [done|]. split.
       { intros Hs. apply Hsup in Hs as [? ?]. done. }
       intros _. split; [done|]. split; [done|]. split; [by split; [exists text|]|done]. }
  assert (is_falsy (Some languageId) = false) as Hf.
  { destruct (is_falsy (Some languageId)) eqn:Hf; [|done].
    discriminate (proj1 Hfalsy eq_refl). }
  rewrite Hf. simpl default.
  assert (isSupportedExtension path = true) as Hyes by (apply Hsup; by eexists).
  destruct (buildCanonicalEdits state (createTextDocument path languageId text))
    as [edits|m] eqn:Hbuild; simpl.
  2: { split; [done|]. split; [done|]. split; [by intros _; repeat split|]. congruence. }
  case_bool_decide as Hnil; simpl.
  { rewrite bool_decide_eq_true_2 by done. simpl.
    split; [done|]. split; [done|]. split; [by intros _; repeat split|]. congruence. }
  case_bool_decide as Hsame; simpl.
  { split; [done|]. split; [done|]. split; [by intros _; repeat split|]. congruence. }
  assert (1 ≤ length edits) as Hlen by lia.
  destruct (writeMode args).
  - destruct (writeFile fs path (applyTextEdits text edits)) as [fs1 [[]|m]]; simpl.
    + split; [done|]. split; [done|]. split; [|congruence].
      intros _. split; [done|]. split; [done|]. split; [done|].
      intros _. split; [done|]. by exists languageId, text, edits.
    + split; [done|]. split; [done|]. split; [by intros _; repeat split|]. congruence.
  - simpl. split; [done|]. split; [done|]. split; [|congruence].
    intros _. split; [done|]. split; [done|]. split; [done|].
    intros _. split; [done|]. by exists languageId, text, edits.
Qed.
End LegacyFacts.

(** ** A failed load of the design system *)

Section FailedLoad.
Context {host : Host} {service : LanguageService} {runtime : Runtime}.

(** X25. A failed load is not retried: the cache keeps the rejected promise,
    so once the load for a stylesheet has failed, every later call of the
    plugin's preprocess function with that stylesheet option, with anything
    but [clearDesignSystemCache] happening in between, returns its text
    unchanged and starts no load. *)
Theorem failed_load_is_not_retried st css m between parserName text opts :
  let first := getDesignSystem st cwd css in
  let later := foldl run_event first.2 between in
  settled first.1 = Thrown m →
  forallb (λ ev, negb (is_clear ev)) between = true →
  canonicalStylesheet opts = css →
  (Plugin.createPreprocess parserName later text opts).1 = text
  ∧ (Plugin.createPreprocess parserName later text opts).2 = later
  ∧ (getDesignSystem later cwd css).1 = first.1.
Proof.
  intros first later Hfail Hbetween Hcss.
  pose proof (getDesignSystem_cached st cwd css) as Hcached. fold first in Hcached.
  destruct (run_events_keep _ _ between _ Hbetween Hcached) as [Hkept _].
  fold later in Hkept.
  pose proof (getDesignSystem_hit _ _ _ _ Hkept) as Hhit.
  split; [|split; [|by rewrite Hhit]].
  - unfold Plugin.createPreprocess. destruct (is_falsy _); [done|].
    rewrite Hcss, Hhit. cbv beta iota zeta. by rewrite Hfail.
  - rewrite createPreprocess_state, Hcss, Hhit. by destruct (is_falsy _).
Qed.
End FailedLoad.

Lemma failed_load_is_not_retried_witness :
  (Plugin.createPreprocess (host := Fixtures.posix_host)
     (service := Fixtures.scripted_service Fixtures.spacing_analyzer)
     (runtime := MoreFixtures.failing_runtime) "html"
     (foldl (run_event (host := Fixtures.posix_host))
        (getDesignSystem (host := Fixtures.posix_host) fresh_process "/app" None).2
        [CallGetDesignSystem "/other" None; PromiseSettles 0])
     "p-[8px] m-1" (mkPluginOptions (Some "/app/page.html") None None)).1
  = "p-[8px] m-1".
Proof.
  apply (failed_load_is_not_retried (host := Fixtures.posix_host)
           (service := Fixtures.scripted_service Fixtures.spacing_analyzer)
           (runtime := MoreFixtures.failing_runtime)
           fresh_process None "Tailwind CSS v4 is required."
           [CallGetDesignSystem "/other" None; PromiseSettles 0]
           "html" "p-[8px] m-1" (mkPluginOptions (Some "/app/page.html") None None));
    reflexivity.
Defined.

Section LegacyRuns.
Context {host : Host} {service : LanguageService} {platform : Platform}.

Lemma legacy_step_agrees fs path designSystem args :
  isSupportedExtension path = true →
  forget_count
    (Legacy.processFile fs
       (createLanguageServiceState designSystem (rootDir args)
          (createSettings (rootFontSize args)))
       path (writeMode args)).1
  = forget_count (processFile fs path designSystem args).1
  ∧ (Legacy.processFile fs
       (createLanguageServiceState designSystem (rootDir args)
          (createSettings (rootFontSize args)))
       path (writeMode args)).2
    = (processFile fs path designSystem args).2.
Proof.
  intros Hsup. apply isSupportedExtension_language in Hsup as [languageId Hlang].
  pose proof (is_falsy_inferLanguageId path) as Hfalsy.
  unfold Legacy.processFile, processFile, canonicalizeDocument.
  change (default DEFAULT_ROOT_FONT_SIZE (Some (rootFontSize args)))
    with (rootFontSize args).
  destruct (readFile fs path) as [text|m]; [|done].
  rewrite Hlang in *.
  destruct (is_falsy (Some languageId)) eqn:Hf.
  { discriminate (proj1 Hfalsy eq_refl). }
  simpl default.
  destruct (buildCanonicalEdits _ _) as [edits|m]; simpl; [|done].
  case_bool_decide as Hnil; simpl.
  { by rewrite bool_decide_eq_true_2 by done. }
  case_bool_decide as Hsame; simpl; [done|].
  destruct (writeMode args); [|done].
  by destruct (writeFile fs path (applyTextEdits text edits)) as [fs1 [[]|m]].
Qed.

Lemma legacy_loop_agrees designSystem args paths old new fs :
  Forall (λ p, isSupportedExtension p = true) paths →
  forget_count <$> old = forget_count <$> new →
  forget_count <$>
    (foldl (Legacy.process_step
              (createLanguageServiceState designSystem (rootDir args)
                 (createSettings (rootFontSize args)))
              (writeMode args)) (old, fs) paths).1
  = forget_count <$> (foldl (process_step designSystem args) (new, fs) paths).1
  ∧ (foldl (Legacy.process_step
              (createLanguageServiceState designSystem (rootDir args)
                 (createSettings (rootFontSize args)))
              (writeMode args)) (old, fs) paths).2
    = (foldl (process_step designSystem args) (new, fs) paths).2.
Proof.
  intros Hpaths. revert old new fs.
  induction Hpaths as [|path paths Hsup _ IH]; intros old new fs Hsame; simpl; [done|].
  destruct (legacy_step_agrees fs path designSystem args Hsup) as [Hres Hfs].
  destruct (Legacy.processFile fs _ path (writeMode args)) as [r1 fs1].
  destruct (processFile fs path designSystem args) as [r2 fs2].
  simpl in Hres, Hfs. subst fs2.
  apply IH. rewrite !fmap_app. simpl. by rewrite Hsame, Hres.
Qed.

Lemma summarizeResults_forget_count results :
  summarizeResults (forget_count <$> results) = summarizeResults results.
Proof.
  rewrite !summarizeResults_counts. unfold count_status.
  assert (∀ st, length (filter (λ r, status r = st) (forget_count <$> results))
                = length (filter (λ r, status r = st) results)) as Hst.
  { intros st. induction results as [|r rs IH]; [done|].
    rewrite fmap_cons, !filter_cons. simpl.
    case_decide; simpl; by rewrite IH. }
  by rewrite !Hst.
Qed.

(** X26. When its own load of the design system settles as the load of the
    core package does, a run of the single-file tool and a run of the batch
    driver on the same arguments and file system end with the same exit
    status and the same file system, process the same files in the same
    order with the same statuses and messages, and print the same summary;
    their results differ in [editCount] only. *)
Theorem legacy_main_agrees fs args :
  let old := Legacy.main fs args (awaitDesignSystem fs (rootDir args) (cssPath args)) in
  let new := main fs args in
  exitCode old = exitCode new
  ∧ fs_after old = fs_after new
  ∧ forget_count <$> results old = forget_count <$> results new
  ∧ (∀ summary, LogDone summary ∈ console old ↔ LogDone summary ∈ console new)
  ∧ length (console old) = length (console new).
Proof.
  intros old new. subst old new. unfold Legacy.main, main.
  destruct (help args || bool_decide (length (targets args) = 0)); [done|].
  case_bool_decide; [done|].
  destruct (awaitDesignSystem fs (rootDir args) (cssPath args))
    as [[[[canon|] invalid]|]|m]; try done.
  pose proof (legacy_loop_agrees (mkDesignSystem (Some canon) invalid) args
                (resolveTargetFiles fs (targets args) (rootDir args)) [] [] fs)
    as Hloop.
  unfold createLanguageServiceState in Hloop.
  destruct Hloop as [Hres Hfs]; [|done|].
  { apply Forall_forall. by intros p [_ ?]%resolveTargetFiles_supported. }
  destruct (foldl (Legacy.process_step _ _) _ _) as [rs1 fs1].
  destruct (foldl (process_step _ _) _ _) as [rs2 fs2].
  simpl in Hres, Hfs. subst fs2. simpl.
  assert (summarizeResults rs1 = summarizeResults rs2) as Hsum.
  { by rewrite <- (summarizeResults_forget_count rs1), Hres, summarizeResults_forget_count. }
  rewrite Hsum. split; [done|]. split; [done|]. split; [done|].
  split.
  - intros summary. rewrite !elem_of_app, !list_elem_of_singleton.
    split; (intros [Hin|?]; [|by right]); exfalso;
      (destruct (_ || _); [|by apply elem_of_nil in Hin]);
      apply report_loop in Hin as [Hin|(r & _ & [?|?])]; try done;
      by apply elem_of_nil in Hin.
  - rewrite !length_app. f_equal.
    destruct (_ || _); [|done].
    rewrite !report_loop_lines. simpl.
    assert (length rs1 = length rs2) as Hlen
      by (by rewrite <- (length_fmap forget_count rs1), Hres, length_fmap).
    destruct (writeMode args); [by rewrite !length_fmap|].
    rewrite !length_fmap.
    clear -Hres. revert rs2 Hres.
    induction rs1 as [|r1 rs1 IH]; intros [|r2 rs2] Hres; try done.
    rewrite !fmap_cons in Hres. injection Hres as _ Hst _ Hrest.
    rewrite !filter_cons, Hst. case_decide; simpl; by rewrite (IH rs2).
Qed.
End LegacyRuns.
